(** * Gemini Live Audio Chat: the session and streaming core of [App.tsx]

    A shallow embedding of the React component [App] of
    [src/gemini-live-audio-chat/App.tsx] and of the enum and interface of
    [types.ts].  The component's [useState] cells and [useRef] cells become the
    fields of one record; every callback ([stopConversation],
    [startConversation], [onopen], [onmessage], [onerror]) becomes a
    computation in a small state, trace and exception monad, written statement
    by statement after the TypeScript text.  Calls on browser and SDK objects
    are recorded as events, so that the order of releases can be stated.

    Conventions.
    - JavaScript numbers that hold times (seconds on the output clock) and
      audio samples are rationals ([Q]); every binary floating-point number
      is a rational, rounding of sums is not modelled.
    - JavaScript strings are [string]s whose characters stand for the code
      units U+0000..U+00FF.
    - A [Promise] that is awaited is represented by the way it settles.
    - [utils/audioUtils] is imported by [App.tsx] but is not among the
      sources; its three codec functions are given in module [Codec] after
      the written description of the PCM codec, and the handlers of [App]
      are parametrised by the two they call. *)

From Stdlib Require Import ZArith QArith Qround Qminmax Qabs Lia Lqa List String Ascii Bool.
Import ListNotations.

Set Implicit Arguments.

(* ================================================================== *)
(** ** Audio buffers (Web Audio [AudioBuffer]) *)

(** An [AudioBuffer]: its sample rate and one sample list per channel.
    [length] and [duration] are the read-only properties of the Web Audio
    interface: [duration = length / sampleRate]. *)
Record AudioBuffer : Type := mkAudioBuffer {
  sampleRate : positive;
  channelData : list (list Q)
}.

Definition buffer_length (b : AudioBuffer) : nat :=
  List.length (hd [] (channelData b)).

Definition duration (b : AudioBuffer) : Q :=
  Z.of_nat (buffer_length b) # sampleRate b.

(* ================================================================== *)
(** ** The PCM codec of [utils/audioUtils] *)

Module Codec.

(** Modelled from the spec: [utils/audioUtils] is missing from the sources.
    The 64 characters of the base64 alphabet, in value order. *)
Definition base64_alphabet : list ascii :=
  list_ascii_of_string
    "ABCDEFGHIJKLMNOPQRSTUVWXYZabcdefghijklmnopqrstuvwxyz0123456789+/".

Definition pad : ascii := "="%char.

(** Modelled from the spec: [utils/audioUtils] is missing.  The character of a
    6-bit value. *)
Definition sextet_char (n : Z) : ascii :=
  nth (Z.to_nat n) base64_alphabet pad.

Fixpoint index_of (c : ascii) (l : list ascii) : option Z :=
  match l with
  | [] => None
  | x :: l' =>
      if Ascii.eqb c x then Some 0%Z
      else option_map Z.succ (index_of c l')
  end.

(** Modelled from the spec: [utils/audioUtils] is missing.  The 6-bit value of
    a character, [None] for a character outside the alphabet. *)
Definition char_sextet (c : ascii) : option Z := index_of c base64_alphabet.

(** Modelled from the spec: [utils/audioUtils] is missing.  Base64 of a byte
    sequence (bytes are integers in 0..255): three bytes give four
    characters, a last group of one or two bytes is padded with [=]. *)
Fixpoint base64_encode (bs : list Z) : list ascii :=
  match bs with
  | [] => []
  | [a] =>
      [sextet_char (a / 4); sextet_char ((a mod 4) * 16); pad; pad]
  | [a; b] =>
      [sextet_char (a / 4); sextet_char ((a mod 4) * 16 + b / 16);
       sextet_char ((b mod 16) * 4); pad]
  | a :: b :: c :: rest =>
      sextet_char (a / 4) :: sextet_char ((a mod 4) * 16 + b / 16)
      :: sextet_char ((b mod 16) * 4 + c / 64) :: sextet_char (c mod 64)
      :: base64_encode rest
  end%Z.

(** Modelled from the spec: [utils/audioUtils] is missing.  Base64 decoding;
    [None] is the [MalformedPayload] failure (a character outside the
    alphabet, a length that is not a multiple of four, padding anywhere but
    at the end). *)
Fixpoint base64_decode (cs : list ascii) : option (list Z) :=
  match cs with
  | [] => Some []
  | c1 :: c2 :: c3 :: c4 :: rest =>
      match char_sextet c1, char_sextet c2 with
      | Some s1, Some s2 =>
          let b1 := (s1 * 4 + s2 / 16)%Z in
          match rest with
          | [] =>
              if Ascii.eqb c4 pad then
                if Ascii.eqb c3 pad then Some [b1]
                else
                  match char_sextet c3 with
                  | Some s3 => Some [b1; ((s2 mod 16) * 16 + s3 / 4)%Z]
                  | None => None
                  end
              else
                match char_sextet c3, char_sextet c4 with
                | Some s3, Some s4 =>
                    Some [b1; ((s2 mod 16) * 16 + s3 / 4)%Z;
                          ((s3 mod 4) * 64 + s4)%Z]
                | _, _ => None
                end
          | _ :: _ =>
              match char_sextet c3, char_sextet c4, base64_decode rest with
              | Some s3, Some s4, Some bs =>
                  Some (b1 :: ((s2 mod 16) * 16 + s3 / 4)%Z
                        :: ((s3 mod 4) * 64 + s4)%Z :: bs)
              | _, _, _ => None
              end
          end
      | _, _ => None
      end
  | _ => None
  end.

(** [Math.round]: the nearest integer, halves towards plus infinity. *)
Definition js_round (x : Q) : Z := Qfloor (x + (1 # 2)).

Definition clamp16 (z : Z) : Z := Z.max (-32768) (Z.min 32767 z).

(** Modelled from the spec: [utils/audioUtils] is missing.  A sample is mapped
    to [round(sample * 32767)], clamped to [-32768, 32767]. *)
Definition sample_to_int16 (x : Q) : Z := clamp16 (js_round (x * 32767)).

(** The two bytes of a signed 16-bit integer, least significant first
    (two's complement). *)
Definition int16_bytes (z : Z) : list Z := [z mod 256; (z / 256) mod 256]%Z.

Definition int16_of_bytes (lo hi : Z) : Z :=
  let u := (lo + 256 * hi)%Z in
  if (32768 <=? u)%Z then (u - 65536)%Z else u.

Definition pcm_bytes (samples : list Q) : list Z :=
  flat_map (fun x => int16_bytes (sample_to_int16 x)) samples.

(** Modelled from the spec: [utils/audioUtils] is missing.
    [encode(samples) -> WireAudioFrame]: 16-bit quantisation, little-endian
    packing, base64. *)
Definition encode (samples : list Q) : string :=
  string_of_list_ascii (base64_encode (pcm_bytes samples)).

(** Modelled from the spec: [utils/audioUtils] is missing.
    [decode(frame) -> raw byte sequence]. *)
Definition decode (frame : string) : option (list Z) :=
  base64_decode (list_ascii_of_string frame).

Fixpoint int16_samples (bs : list Z) : list Z :=
  match bs with
  | lo :: hi :: rest => int16_of_bytes lo hi :: int16_samples rest
  | _ => []
  end.

(** The samples of channel [k] of an interleaved sequence with [n]
    channels: [k] elements are skipped, then every [n]-th is kept. *)
Fixpoint every_nth {A : Type} (n k : nat) (l : list A) : list A :=
  match l with
  | [] => []
  | x :: l' =>
      match k with
      | O => x :: every_nth n (n - 1) l'
      | S k' => every_nth n k' l'
      end
  end.

(** Modelled from the spec: [utils/audioUtils] is missing.
    [decodeAudioData(bytes, targetSampleRate, channelCount)]: signed 16-bit
    little-endian samples, each converted by [value / 32768];
    [length = byteLength / 2 / channelCount] samples per channel; [None] is
    the [InvalidAudioData] failure (byte length not a multiple of
    [2 * channelCount]). *)
Definition decodeAudioData (bytes : list Z) (targetSampleRate : positive)
    (channelCount : nat) : option AudioBuffer :=
  match channelCount with
  | O => None
  | S _ =>
      if Nat.eqb (List.length bytes mod (2 * channelCount)) 0 then
        let samples := map (fun v => v # 32768) (int16_samples bytes) in
        Some (mkAudioBuffer targetSampleRate
                (map (fun k => every_nth channelCount k samples)
                     (seq 0 channelCount)))
      else None
  end.

End Codec.

(* ================================================================== *)
(** ** [types.ts] *)

Inductive ConversationStatus : Type := IDLE | LISTENING | PROCESSING.

Inductive Speaker : Type := user | gemini.

Record TranscriptEntry : Type := mkEntry {
  speaker : Speaker;
  text : string
}.

Definition ConversationStatus_eqb (a b : ConversationStatus) : bool :=
  match a, b with
  | IDLE, IDLE | LISTENING, LISTENING | PROCESSING, PROCESSING => true
  | _, _ => false
  end.

(* ================================================================== *)
(** ** Browser and SDK objects *)

(** A thrown value: only its [message] property is read ([err.message]),
    and it may be [undefined]. *)
Record JsError : Type := mkError { message : option string }.

(** How an evaluation completes, and how a promise settles: normally with a
    value (fulfilled), or abruptly with a thrown value (rejected). *)
Inductive Completion (A : Type) : Type :=
| Normal (a : A)
| Throw (e : JsError).

Arguments Normal {A} a.
Arguments Throw {A} e.

Record LiveSession : Type := mkSession { sessionId : nat }.

(** A [MediaStream], by the tracks that [getTracks()] returns. *)
Record MediaStream : Type := mkStream { getTracks : list nat }.

Inductive AudioContextState : Type := suspended | running | closed.

Record AudioContext : Type := mkContext {
  contextId : nat;
  state : AudioContextState
}.

Record ScriptProcessorNode : Type := mkProcessor { processorId : nat }.

(** A node made by [createBufferSource()]; [sourceId] is its identity as an
    object, [buffer] its [buffer] property. *)
Record AudioBufferSourceNode : Type := mkSource {
  sourceId : nat;
  buffer : AudioBuffer
}.

(** The part of [LiveServerMessage] that [onmessage] reads.  Every property
    is optional, as in the SDK's declarations. *)
Record Transcription : Type := mkTranscription { transcriptionText : option string }.
Record Blob : Type := mkBlob { data : option string }.
Record Part : Type := mkPart { inlineData : option Blob }.
Record Content : Type := mkContent { parts : option (list Part) }.

Record LiveServerContent : Type := mkServerContent {
  modelTurn : option Content;
  turnComplete : option bool;
  interrupted : option bool;
  inputTranscription : option Transcription;
  outputTranscription : option Transcription
}.

Record LiveServerMessage : Type := mkMessage {
  serverContent : option LiveServerContent
}.

(* ================================================================== *)
(** ** JavaScript strings *)

(** [WhiteSpace] and [LineTerminator] code points below U+0100: TAB, LF, VT,
    FF, CR, SP and NBSP. *)
Definition isWhiteSpace (c : ascii) : bool :=
  let n := nat_of_ascii c in
  ((9 <=? n) && (n <=? 13) || (n =? 32) || (n =? 160))%nat.

Fixpoint trimStart_chars (l : list ascii) : list ascii :=
  match l with
  | [] => []
  | c :: l' => if isWhiteSpace c then trimStart_chars l' else l
  end.

(** [String.prototype.trim]. *)
Definition trim (s : string) : string :=
  string_of_list_ascii
    (rev (trimStart_chars (rev (trimStart_chars (list_ascii_of_string s))))).

(** Truthiness of a string: the empty string is falsy. *)
Definition truthy (s : string) : bool :=
  match s with EmptyString => false | String _ _ => true end.

(** [ToString] of a possibly undefined string, as done by [+=]. *)
Definition toString (t : option string) : string :=
  match t with Some s => s | None => "undefined"%string end.

(** [a || b] on possibly undefined strings. *)
Definition or_else (a : option string) (b : string) : string :=
  match a with
  | Some s => if truthy s then s else b
  | None => b
  end.

(* ================================================================== *)
(** ** The component's state *)

(** The three [useState] cells and the [useRef] cells of [App].
    [playingSourcesRef] is a [Set]: a duplicate-free list in insertion order,
    the order in which [values()] iterates.  [createdSources] counts the
    calls of [createBufferSource()], which gives each new node its
    identity. *)
Record App : Type := mkApp {
  status : ConversationStatus;
  transcript : list TranscriptEntry;
  error : option string;
  sessionPromiseRef : option (Completion LiveSession);
  inputAudioContextRef : option AudioContext;
  outputAudioContextRef : option AudioContext;
  microphoneStreamRef : option MediaStream;
  scriptProcessorRef : option ScriptProcessorNode;
  currentInputTranscriptionRef : string;
  currentOutputTranscriptionRef : string;
  nextStartTimeRef : Q;
  playingSourcesRef : list AudioBufferSourceNode;
  createdSources : nat
}.

(** The state of a freshly mounted component. *)
Definition initialApp : App :=
  {| status := IDLE; transcript := []; error := None;
     sessionPromiseRef := None; inputAudioContextRef := None;
     outputAudioContextRef := None; microphoneStreamRef := None;
     scriptProcessorRef := None;
     currentInputTranscriptionRef := ""; currentOutputTranscriptionRef := "";
     nextStartTimeRef := 0; playingSourcesRef := []; createdSources := 0 |}.

Definition with_status v (s : App) : App :=
  mkApp v (transcript s) (error s) (sessionPromiseRef s)
    (inputAudioContextRef s) (outputAudioContextRef s) (microphoneStreamRef s)
    (scriptProcessorRef s) (currentInputTranscriptionRef s)
    (currentOutputTranscriptionRef s) (nextStartTimeRef s)
    (playingSourcesRef s) (createdSources s).

Definition with_transcript v (s : App) : App :=
  mkApp (status s) v (error s) (sessionPromiseRef s)
    (inputAudioContextRef s) (outputAudioContextRef s) (microphoneStreamRef s)
    (scriptProcessorRef s) (currentInputTranscriptionRef s)
    (currentOutputTranscriptionRef s) (nextStartTimeRef s)
    (playingSourcesRef s) (createdSources s).

Definition with_error v (s : App) : App :=
  mkApp (status s) (transcript s) v (sessionPromiseRef s)
    (inputAudioContextRef s) (outputAudioContextRef s) (microphoneStreamRef s)
    (scriptProcessorRef s) (currentInputTranscriptionRef s)
    (currentOutputTranscriptionRef s) (nextStartTimeRef s)
    (playingSourcesRef s) (createdSources s).

Definition with_sessionPromiseRef v (s : App) : App :=
  mkApp (status s) (transcript s) (error s) v
    (inputAudioContextRef s) (outputAudioContextRef s) (microphoneStreamRef s)
    (scriptProcessorRef s) (currentInputTranscriptionRef s)
    (currentOutputTranscriptionRef s) (nextStartTimeRef s)
    (playingSourcesRef s) (createdSources s).

Definition with_inputAudioContextRef v (s : App) : App :=
  mkApp (status s) (transcript s) (error s) (sessionPromiseRef s)
    v (outputAudioContextRef s) (microphoneStreamRef s)
    (scriptProcessorRef s) (currentInputTranscriptionRef s)
    (currentOutputTranscriptionRef s) (nextStartTimeRef s)
    (playingSourcesRef s) (createdSources s).

Definition with_outputAudioContextRef v (s : App) : App :=
  mkApp (status s) (transcript s) (error s) (sessionPromiseRef s)
    (inputAudioContextRef s) v (microphoneStreamRef s)
    (scriptProcessorRef s) (currentInputTranscriptionRef s)
    (currentOutputTranscriptionRef s) (nextStartTimeRef s)
    (playingSourcesRef s) (createdSources s).

Definition with_microphoneStreamRef v (s : App) : App :=
  mkApp (status s) (transcript s) (error s) (sessionPromiseRef s)
    (inputAudioContextRef s) (outputAudioContextRef s) v
    (scriptProcessorRef s) (currentInputTranscriptionRef s)
    (currentOutputTranscriptionRef s) (nextStartTimeRef s)
    (playingSourcesRef s) (createdSources s).

Definition with_scriptProcessorRef v (s : App) : App :=
  mkApp (status s) (transcript s) (error s) (sessionPromiseRef s)
    (inputAudioContextRef s) (outputAudioContextRef s) (microphoneStreamRef s)
    v (currentInputTranscriptionRef s)
    (currentOutputTranscriptionRef s) (nextStartTimeRef s)
    (playingSourcesRef s) (createdSources s).

Definition with_currentInputTranscriptionRef v (s : App) : App :=
  mkApp (status s) (transcript s) (error s) (sessionPromiseRef s)
    (inputAudioContextRef s) (outputAudioContextRef s) (microphoneStreamRef s)
    (scriptProcessorRef s) v
    (currentOutputTranscriptionRef s) (nextStartTimeRef s)
    (playingSourcesRef s) (createdSources s).

Definition with_currentOutputTranscriptionRef v (s : App) : App :=
  mkApp (status s) (transcript s) (error s) (sessionPromiseRef s)
    (inputAudioContextRef s) (outputAudioContextRef s) (microphoneStreamRef s)
    (scriptProcessorRef s) (currentInputTranscriptionRef s)
    v (nextStartTimeRef s)
    (playingSourcesRef s) (createdSources s).

Definition with_nextStartTimeRef v (s : App) : App :=
  mkApp (status s) (transcript s) (error s) (sessionPromiseRef s)
    (inputAudioContextRef s) (outputAudioContextRef s) (microphoneStreamRef s)
    (scriptProcessorRef s) (currentInputTranscriptionRef s)
    (currentOutputTranscriptionRef s) v
    (playingSourcesRef s) (createdSources s).

Definition with_playingSourcesRef v (s : App) : App :=
  mkApp (status s) (transcript s) (error s) (sessionPromiseRef s)
    (inputAudioContextRef s) (outputAudioContextRef s) (microphoneStreamRef s)
    (scriptProcessorRef s) (currentInputTranscriptionRef s)
    (currentOutputTranscriptionRef s) (nextStartTimeRef s)
    v (createdSources s).

Definition with_createdSources v (s : App) : App :=
  mkApp (status s) (transcript s) (error s) (sessionPromiseRef s)
    (inputAudioContextRef s) (outputAudioContextRef s) (microphoneStreamRef s)
    (scriptProcessorRef s) (currentInputTranscriptionRef s)
    (currentOutputTranscriptionRef s) (nextStartTimeRef s)
    (playingSourcesRef s) v.

(** [Set.prototype.add] and [Set.prototype.delete] on nodes, compared by
    identity. *)
Definition same_source (a b : AudioBufferSourceNode) : bool :=
  Nat.eqb (sourceId a) (sourceId b).

Definition set_add (x : AudioBufferSourceNode)
    (l : list AudioBufferSourceNode) : list AudioBufferSourceNode :=
  if existsb (same_source x) l then l else l ++ [x].

Definition set_delete (x : AudioBufferSourceNode)
    (l : list AudioBufferSourceNode) : list AudioBufferSourceNode :=
  filter (fun y => negb (same_source x y)) l.

(* ================================================================== *)
(** ** Observable calls *)

(** The calls the component makes on React, the console, the browser and
    the SDK, in the order it makes them. *)
Inductive Event : Type :=
| SetStatus (v : ConversationStatus)
| SetError (v : option string)
| SetTranscript (v : list TranscriptEntry)
| AppendTranscript (e : TranscriptEntry)
| ConsoleError (label : string)
| GetUserMedia
| NewAudioContext (rate : positive)
| LiveConnect
| CreateMediaStreamSource (c : AudioContext)
| CreateScriptProcessor (c : AudioContext) (p : ScriptProcessorNode)
| SessionClose (x : LiveSession)
| TrackStop (t : nat)
| ProcessorDisconnect (p : ScriptProcessorNode)
| ContextClose (c : AudioContext)
| SourceConnect (x : AudioBufferSourceNode) (c : AudioContext)
| SourceStart (x : AudioBufferSourceNode) (when : Q)
| SourceStop (x : AudioBufferSourceNode).

(** The calls that release a resource. *)
Definition is_release (e : Event) : bool :=
  match e with
  | SessionClose _ | TrackStop _ | ProcessorDisconnect _ | ContextClose _
  | SourceStop _ => true
  | _ => false
  end.

(** The calls that acquire a resource or open the connection. *)
Definition is_acquisition (e : Event) : bool :=
  match e with
  | GetUserMedia | NewAudioContext _ | LiveConnect => true
  | _ => false
  end.

(* ================================================================== *)
(** ** The monad of callbacks *)

(** A callback transforms the component's state, completes normally or
    throws, and leaves a trace of calls. *)
Definition M (A : Type) : Type := App -> Completion A * App * list Event.

Definition ret {A} (a : A) : M A := fun s => (Normal a, s, []).

Definition bind {A B} (m : M A) (f : A -> M B) : M B :=
  fun s =>
    match m s with
    | (Normal a, s1, t1) =>
        let '(r, s2, t2) := f a s1 in (r, s2, t1 ++ t2)
    | (Throw e, s1, t1) => (Throw e, s1, t1)
    end.

Definition throw {A} (e : JsError) : M A := fun s => (Throw e, s, []).

(** [try { m } catch (e) { h e }] *)
Definition try_catch {A} (m : M A) (h : JsError -> M A) : M A :=
  fun s =>
    match m s with
    | (Normal a, s1, t1) => (Normal a, s1, t1)
    | (Throw e, s1, t1) =>
        let '(r, s2, t2) := h e s1 in (r, s2, t1 ++ t2)
    end.

Definition gets {A} (f : App -> A) : M A := fun s => (Normal (f s), s, []).
Definition modify (f : App -> App) : M unit := fun s => (Normal tt, f s, []).
Definition emit (e : Event) : M unit := fun s => (Normal tt, s, [e]).

(** [await p], and the completion of a call that may throw. *)
Definition await {A} (p : Completion A) : M A :=
  match p with
  | Normal a => ret a
  | Throw e => throw e
  end.

Declare Scope js_scope.
Delimit Scope js_scope with js.
Notation "x <- c1 ;; c2" := (bind c1 (fun x => c2))
  (at level 61, c1 at next level, right associativity) : js_scope.
Notation "c1 ;; c2" := (bind c1 (fun _ => c2))
  (at level 61, right associativity) : js_scope.
Open Scope js_scope.

(** [for (const x of l) body(x)] *)
Fixpoint for_each {A} (l : list A) (body : A -> M unit) : M unit :=
  match l with
  | [] => ret tt
  | x :: l' => body x ;; for_each l' body
  end.

(** [if (c) { m }] *)
Definition when (c : bool) (m : M unit) : M unit := if c then m else ret tt.

Definition final {A} (r : Completion A * App * list Event) : App := snd (fst r).
Definition trace {A} (r : Completion A * App * list Event) : list Event := snd r.
Definition completion {A} (r : Completion A * App * list Event) : Completion A :=
  fst (fst r).

(** The React setters. *)
Definition setStatus (v : ConversationStatus) : M unit :=
  emit (SetStatus v) ;; modify (with_status v).

Definition setError (v : option string) : M unit :=
  emit (SetError v) ;; modify (with_error v).

Definition setTranscript (v : list TranscriptEntry) : M unit :=
  emit (SetTranscript v) ;; modify (with_transcript v).

(** [setTranscript(prev => [...prev, e])] *)
Definition appendTranscript (e : TranscriptEntry) : M unit :=
  emit (AppendTranscript e) ;; modify (fun s => with_transcript (transcript s ++ [e]) s).

(* ================================================================== *)
(** ** [stopConversation] (lines 30-71) *)

Definition is_closed (c : AudioContext) : bool :=
  match state c with closed => true | _ => false end.

Definition stopConversation : M unit :=
  setStatus PROCESSING ;;
  try_catch
    (p <- gets sessionPromiseRef ;;
     match p with
     | Some promise =>
         session <- await promise ;;
         emit (SessionClose session) ;;
         modify (with_sessionPromiseRef None)
     | None => ret tt
     end)
    (fun e => emit (ConsoleError "Error closing session:")) ;;
  mic <- gets microphoneStreamRef ;;
  match mic with
  | Some stream =>
      for_each (getTracks stream) (fun track => emit (TrackStop track)) ;;
      modify (with_microphoneStreamRef None)
  | None => ret tt
  end ;;
  proc <- gets scriptProcessorRef ;;
  match proc with
  | Some node =>
      emit (ProcessorDisconnect node) ;;
      modify (with_scriptProcessorRef None)
  | None => ret tt
  end ;;
  ictx <- gets inputAudioContextRef ;;
  match ictx with
  | Some ctx =>
      when (negb (is_closed ctx))
        (emit (ContextClose ctx) ;;
         modify (with_inputAudioContextRef None))
  | None => ret tt
  end ;;
  octx <- gets outputAudioContextRef ;;
  match octx with
  | Some ctx =>
      when (negb (is_closed ctx))
        (sources <- gets playingSourcesRef ;;
         for_each sources (fun source => emit (SourceStop source)) ;;
         modify (with_playingSourcesRef []) ;;
         emit (ContextClose ctx) ;;
         modify (with_outputAudioContextRef None))
  | None => ret tt
  end ;;
  modify (with_currentInputTranscriptionRef "") ;;
  modify (with_currentOutputTranscriptionRef "") ;;
  modify (with_nextStartTimeRef 0) ;;
  setStatus IDLE.

(* ================================================================== *)
(** ** [startConversation] (lines 73-200) *)

(** What the surroundings answer during one call of [startConversation]:
    the value of [process.env.API_KEY], how the promise of [getUserMedia]
    settles, how [new CrossBrowserAudioContext({ sampleRate })] completes,
    and how the promise returned by [ai.live.connect] settles. *)
Record Env : Type := mkEnv {
  API_KEY : option string;
  getUserMedia : Completion MediaStream;
  newAudioContext : positive -> Completion AudioContext;
  connect : Completion LiveSession
}.

(** The body of the [try] block up to the call of [connect]
    (lines 81-94); the promise of [connect] is stored, not awaited. *)
Definition acquire (env : Env) : M unit :=
  when (negb (truthy (or_else (API_KEY env) "")))
    (throw (mkError (Some "API_KEY environment variable not set."%string))) ;;
  emit GetUserMedia ;;
  stream <- await (getUserMedia env) ;;
  modify (with_microphoneStreamRef (Some stream)) ;;
  emit (NewAudioContext 16000) ;;
  ictx <- await (newAudioContext env 16000) ;;
  modify (with_inputAudioContextRef (Some ictx)) ;;
  emit (NewAudioContext 24000) ;;
  octx <- await (newAudioContext env 24000) ;;
  modify (with_outputAudioContextRef (Some octx)) ;;
  emit LiveConnect ;;
  modify (with_sessionPromiseRef (Some (connect env))).

(** The [catch] block (lines 195-199). *)
Definition startFailed (err : JsError) : M unit :=
  emit (ConsoleError "Failed to start conversation:") ;;
  setError (Some (or_else (message err) "An unexpected error occurred.")) ;;
  stopConversation.

(** The guard reads [status]; the three setters run before the [try]. *)
Definition startConversation (env : Env) : M unit :=
  st <- gets status ;;
  if negb (ConversationStatus_eqb st IDLE) then ret tt
  else
    setStatus PROCESSING ;;
    setError None ;;
    setTranscript [] ;;
    try_catch (acquire env) startFailed.

(** [onopen] (lines 106-125); [scriptProcessor] is the node that
    [createScriptProcessor(4096, 1, 1)] returns. *)
Definition onopen (scriptProcessor : ScriptProcessorNode) : M unit :=
  ictx <- gets inputAudioContextRef ;;
  match ictx with
  | None => ret tt
  | Some ctx =>
      emit (CreateMediaStreamSource ctx) ;;
      emit (CreateScriptProcessor ctx scriptProcessor) ;;
      modify (with_scriptProcessorRef (Some scriptProcessor)) ;;
      setStatus LISTENING
  end.

(** [onerror] (lines 184-188); [e_message] is [e.message].  The call of
    [stopConversation] is not awaited; it is run here to its end. *)
Definition onerror (e_message : string) : M unit :=
  emit (ConsoleError "API Error:") ;;
  setError (Some ("Connection error: " ++ e_message)%string) ;;
  stopConversation.

(** [handleButtonClick] (lines 202-208). *)
Definition handleButtonClick (env : Env) : M unit :=
  st <- gets status ;;
  if ConversationStatus_eqb st IDLE then startConversation env
  else stopConversation.

(* ================================================================== *)
(** ** [onmessage] (lines 126-183) *)

(** [message.serverContent?.f] *)
Definition optional {A} (f : LiveServerContent -> option A)
    (message : LiveServerMessage) : option A :=
  match serverContent message with
  | Some sc => f sc
  | None => None
  end.

(** Truthiness of [message.serverContent?.f] for a boolean property. *)
Definition flag (f : LiveServerContent -> option bool)
    (message : LiveServerMessage) : bool :=
  match optional f message with
  | Some b => b
  | None => false
  end.

(** [message.serverContent?.modelTurn?.parts[0]?.inlineData?.data]: the
    chain stops at an undefined [serverContent] or [modelTurn]; indexing
    undefined [parts] throws a [TypeError]. *)
Definition inlineAudio (message : LiveServerMessage) : Completion (option string) :=
  match optional modelTurn message with
  | None => Normal None
  | Some content =>
      match parts content with
      | None =>
          Throw (mkError
            (Some "Cannot read properties of undefined (reading '0')"%string))
      | Some ps =>
          Normal (match ps with
                  | [] => None
                  | p :: _ =>
                      match inlineData p with
                      | Some b => data b
                      | None => None
                      end
                  end)
      end
  end.

(** The body of the interruption block (lines 177-181): stop every source
    of the set, clear the set, reset the cursor. *)
Definition flush : M unit :=
  sources <- gets playingSourcesRef ;;
  for_each sources (fun source => emit (SourceStop source)) ;;
  modify (with_playingSourcesRef []) ;;
  modify (with_nextStartTimeRef 0).

(** The [if (interrupted && outputAudioContextRef.current)] statement
    (lines 175-182). *)
Definition interruption (message : LiveServerMessage) : M unit :=
  octx <- gets outputAudioContextRef ;;
  when (flag interrupted message
        && match octx with Some _ => true | None => false end)
    flush.

(** The two transcription branches (lines 127-133). *)
Definition appendFragment (message : LiveServerMessage) : M unit :=
  match optional outputTranscription message with
  | Some tr =>
      modify (fun s => with_currentOutputTranscriptionRef
        (currentOutputTranscriptionRef s ++ toString (transcriptionText tr)) s)
  | None =>
      match optional inputTranscription message with
      | Some tr =>
          modify (fun s => with_currentInputTranscriptionRef
            (currentInputTranscriptionRef s ++ toString (transcriptionText tr)) s)
      | None => ret tt
      end
  end.

(** The body of the [turnComplete] block (lines 136-147). *)
Definition completeTurn : M unit :=
  fullInput <- gets (fun s => trim (currentInputTranscriptionRef s)) ;;
  fullOutput <- gets (fun s => trim (currentOutputTranscriptionRef s)) ;;
  when (truthy fullInput) (appendTranscript (mkEntry user fullInput)) ;;
  when (truthy fullOutput) (appendTranscript (mkEntry gemini fullOutput)) ;;
  modify (with_currentInputTranscriptionRef "") ;;
  modify (with_currentOutputTranscriptionRef "").

(** Lines 127-148: the transcription branches, then the [turnComplete]
    block. *)
Definition transcripts (message : LiveServerMessage) : M unit :=
  appendFragment message ;;
  when (flag turnComplete message) completeTurn.

(** The ['ended'] listener of a source (lines 166-168). *)
Definition onended (source : AudioBufferSourceNode) : M unit :=
  modify (fun s => with_playingSourcesRef
                     (set_delete source (playingSourcesRef s)) s).

(** A call of [onmessage] that is suspended at its [await]: the promise it
    waits for, and the variables the rest of the body uses. *)
Record Suspended : Type := mkSuspended {
  awaited : Completion AudioBuffer;
  audioContext : AudioContext;
  suspendedMessage : LiveServerMessage
}.

(** The condition [audioData && outputAudioContextRef.current]. *)
Definition audio_branch (audioData : option string)
    (octx : option AudioContext) : option (string * AudioContext) :=
  match audioData, octx with
  | Some d, Some c => if truthy d then Some (d, c) else None
  | _, _ => None
  end.

Section Callbacks.

(** The two functions of [utils/audioUtils] that [onmessage] calls:
    [decode] completes with the bytes or throws; [decodeAudioData] is
    asynchronous, its promise is fulfilled with the buffer or rejected. *)
Variable decode : string -> Completion (list Z).
Variable decodeAudioData :
  list Z -> AudioContext -> positive -> nat -> Completion AudioBuffer.

(** The body of [onmessage] from its first statement to the [await]
    (lines 127-155) when the message carries audio, and the whole body
    otherwise.  [currentTime] is the value of [audioContext.currentTime]
    read at line 153. *)
Definition onmessage_arrive (message : LiveServerMessage) (currentTime : Q)
    : M (option Suspended) :=
  transcripts message ;;
  audioData <- await (inlineAudio message) ;;
  octx <- gets outputAudioContextRef ;;
  match audio_branch audioData octx with
  | Some (d, ctx) =>
      modify (fun s => with_nextStartTimeRef
                         (Qmax (nextStartTimeRef s) currentTime) s) ;;
      bytes <- await (decode d) ;;
      ret (Some (mkSuspended (decodeAudioData bytes ctx 24000%positive 1%nat)
                   ctx message))
  | None =>
      interruption message ;;
      ret None
  end.

(** The rest of the body, run when the awaited promise has settled
    (lines 155-182). *)
Definition onmessage_resume (k : Suspended) : M unit :=
  audioBuffer <- await (awaited k) ;;
  n <- gets createdSources ;;
  modify (with_createdSources (S n)) ;;
  let source := mkSource n audioBuffer in
  emit (SourceConnect source (audioContext k)) ;;
  t <- gets nextStartTimeRef ;;
  emit (SourceStart source t) ;;
  modify (fun s => with_nextStartTimeRef
                     (nextStartTimeRef s + duration audioBuffer) s) ;;
  modify (fun s => with_playingSourcesRef
                     (set_add source (playingSourcesRef s)) s) ;;
  interruption (suspendedMessage k).

(** [onmessage] when the awaited promise settles before anything else
    happens. *)
Definition onmessage (message : LiveServerMessage) (currentTime : Q) : M unit :=
  k <- onmessage_arrive message currentTime ;;
  match k with
  | Some k => onmessage_resume k
  | None => ret tt
  end.

(** Messages handled one after the other, each with the clock value read
    while it is handled. *)
Fixpoint onmessages (l : list (LiveServerMessage * Q)) : M unit :=
  match l with
  | [] => ret tt
  | (m, now) :: l' =>
      fun s =>
        let '(_, s1, t1) := onmessage m now s in
        let '(r, s2, t2) := onmessages l' s1 in
        (r, s2, t1 ++ t2)
  end.

(** *** Interleaved handling

    The SDK does not wait for the promise that [onmessage] returns: a
    second message may arrive while the first call is suspended, and the
    suspended calls resume in the order in which their promises settle. *)
Record Sys : Type := mkSys {
  sysApp : App;
  sysSuspended : list Suspended;
  sysTrace : list Event
}.

Inductive Step : Type :=
| Arrive (message : LiveServerMessage) (currentTime : Q)
| Settle (i : nat).

Fixpoint remove_nth {A} (i : nat) (l : list A) : list A :=
  match l, i with
  | [], _ => []
  | _ :: l', O => l'
  | x :: l', S i' => x :: remove_nth i' l'
  end.

Definition sys_step (y : Sys) (st : Step) : Sys :=
  match st with
  | Arrive message currentTime =>
      let '(r, s', t) := onmessage_arrive message currentTime (sysApp y) in
      mkSys s'
        (sysSuspended y ++
           match r with Normal (Some k) => [k] | _ => [] end)
        (sysTrace y ++ t)
  | Settle i =>
      match nth_error (sysSuspended y) i with
      | Some k =>
          let '(_, s', t) := onmessage_resume k (sysApp y) in
          mkSys s' (remove_nth i (sysSuspended y)) (sysTrace y ++ t)
      | None => y
      end
  end.

Definition sys_run (steps : list Step) (y : Sys) : Sys :=
  fold_left sys_step steps y.

End Callbacks.

(** The playback schedule that a trace sets up: start time and duration of
    every source started, in the order of the [start] calls. *)
Fixpoint schedule (t : list Event) : list (Q * Q) :=
  match t with
  | [] => []
  | SourceStart x when :: t' => (when, duration (buffer x)) :: schedule t'
  | _ :: t' => schedule t'
  end.

(** The sources stopped by a trace. *)
Fixpoint stopped (t : list Event) : list AudioBufferSourceNode :=
  match t with
  | [] => []
  | SourceStop x :: t' => x :: stopped t'
  | _ :: t' => stopped t'
  end.

(** The codec of module [Codec] in the form the callbacks take. *)
Definition MalformedPayload : JsError := mkError (Some "MalformedPayload"%string).
Definition InvalidAudioData : JsError := mkError (Some "InvalidAudioData"%string).

Definition codec_decode (d : string) : Completion (list Z) :=
  match Codec.decode d with
  | Some bytes => Normal bytes
  | None => Throw MalformedPayload
  end.

Definition codec_decodeAudioData (bytes : list Z) (ctx : AudioContext)
    (rate : positive) (numChannels : nat) : Completion AudioBuffer :=
  match Codec.decodeAudioData bytes rate numChannels with
  | Some b => Normal b
  | None => Throw InvalidAudioData
  end.

(** Encoding followed by decoding, for one channel. *)
Definition roundtrip (samples : list Q) (rate : positive) : option AudioBuffer :=
  match Codec.decode (Codec.encode samples) with
  | Some bytes => Codec.decodeAudioData bytes rate 1
  | None => None
  end.

(* ================================================================== *)
(** ** Vocabulary of the statements *)

(** What one turn completion appends: an entry for the trimmed user buffer
    if it is not empty, then one for the trimmed assistant buffer (speaker
    ['gemini']) if it is not empty. *)
Definition turn_entries (s : App) : list TranscriptEntry :=
  (if truthy (trim (currentInputTranscriptionRef s))
   then [mkEntry user (trim (currentInputTranscriptionRef s))] else []) ++
  (if truthy (trim (currentOutputTranscriptionRef s))
   then [mkEntry gemini (trim (currentOutputTranscriptionRef s))] else []).

(** The releases due in a state, in the order of the teardown: transport
    session, microphone tracks, capture node, input context, playing sources
    and output context.  A step is absent when its resource is not held. *)
Definition release_order (s : App) : list Event :=
  match sessionPromiseRef s with
  | Some (Normal session) => [SessionClose session]
  | _ => []
  end ++
  match microphoneStreamRef s with
  | Some stream => map TrackStop (getTracks stream)
  | None => []
  end ++
  match scriptProcessorRef s with
  | Some node => [ProcessorDisconnect node]
  | None => []
  end ++
  match inputAudioContextRef s with
  | Some ctx => if is_closed ctx then [] else [ContextClose ctx]
  | None => []
  end ++
  match outputAudioContextRef s with
  | Some ctx =>
      if is_closed ctx then []
      else map SourceStop (playingSourcesRef s) ++ [ContextClose ctx]
  | None => []
  end.

(** All the calls of one teardown. *)
Definition stop_trace (s : App) : list Event :=
  [SetStatus PROCESSING] ++
  match sessionPromiseRef s with
  | Some (Normal session) => [SessionClose session]
  | Some (Throw _) => [ConsoleError "Error closing session:"]
  | None => []
  end ++
  match microphoneStreamRef s with
  | Some stream => map TrackStop (getTracks stream)
  | None => []
  end ++
  match scriptProcessorRef s with
  | Some node => [ProcessorDisconnect node]
  | None => []
  end ++
  match inputAudioContextRef s with
  | Some ctx => if is_closed ctx then [] else [ContextClose ctx]
  | None => []
  end ++
  match outputAudioContextRef s with
  | Some ctx =>
      if is_closed ctx then []
      else map SourceStop (playingSourcesRef s) ++ [ContextClose ctx]
  | None => []
  end ++
  [SetStatus IDLE].

Definition keep_if_closed (r : option AudioContext) : option AudioContext :=
  match r with
  | Some ctx => if is_closed ctx then Some ctx else None
  | None => None
  end.

(** The state a teardown ends in. *)
Definition stopped_state (s : App) : App :=
  {| status := IDLE;
     transcript := transcript s;
     error := error s;
     sessionPromiseRef :=
       match sessionPromiseRef s with
       | Some (Normal _) => None
       | p => p
       end;
     inputAudioContextRef := keep_if_closed (inputAudioContextRef s);
     outputAudioContextRef := keep_if_closed (outputAudioContextRef s);
     microphoneStreamRef := None;
     scriptProcessorRef := None;
     currentInputTranscriptionRef := "";
     currentOutputTranscriptionRef := "";
     nextStartTimeRef := 0;
     playingSourcesRef :=
       match outputAudioContextRef s with
       | Some ctx => if is_closed ctx then playingSourcesRef s else []
       | None => playingSourcesRef s
       end;
     createdSources := createdSources s |}.

(** No acquired resource is held: no open session, no stream, no capture
    node, and no context that is not closed. *)
Definition released (s : App) : Prop :=
  match sessionPromiseRef s with Some (Normal _) => False | _ => True end /\
  microphoneStreamRef s = None /\
  scriptProcessorRef s = None /\
  match inputAudioContextRef s with Some c => state c = closed | None => True end /\
  match outputAudioContextRef s with Some c => state c = closed | None => True end.

(** The scheduler after a flush. *)
Definition flushed (s : App) : App :=
  with_nextStartTimeRef 0 (with_playingSourcesRef [] s).

(** A relation holds between every two neighbours of a list. *)
Fixpoint consecutive {A} (R : A -> A -> Prop) (l : list A) : Prop :=
  match l with
  | [] => True
  | p :: l' =>
      match l' with
      | [] => True
      | q :: _ => R p q
      end /\ consecutive R l'
  end.

(** A step that carries no interruption signal. *)
Definition no_interruption (st : Step) : Prop :=
  match st with
  | Arrive message _ => flag interrupted message = false
  | Settle _ => True
  end.

(** Messages of one kind each. *)
Definition inputFragment (t : string) : LiveServerMessage :=
  mkMessage (Some (mkServerContent None None None
                     (Some (mkTranscription (Some t))) None)).

Definition outputFragment (t : string) : LiveServerMessage :=
  mkMessage (Some (mkServerContent None None None None
                     (Some (mkTranscription (Some t))))).

Definition turnCompleteMessage : LiveServerMessage :=
  mkMessage (Some (mkServerContent None (Some true) None None None)).

Definition interruptedMessage : LiveServerMessage :=
  mkMessage (Some (mkServerContent None None (Some true) None None)).

Definition audioMessage (d : string) : LiveServerMessage :=
  mkMessage (Some (mkServerContent
    (Some (mkContent (Some [mkPart (Some (mkBlob (Some d)))])))
    None None None None)).

(** A chunk that does not decode, in a message that also signals an
    interruption. *)
Definition interruptedAudioMessage (d : string) : LiveServerMessage :=
  mkMessage (Some (mkServerContent
    (Some (mkContent (Some [mkPart (Some (mkBlob (Some d)))])))
    None (Some true) None None)).

(** The message without its audio chunk. *)
Definition without_audio (message : LiveServerMessage) : LiveServerMessage :=
  mkMessage
    (match serverContent message with
     | Some sc =>
         Some (mkServerContent None (turnComplete sc) (interrupted sc)
                 (inputTranscription sc) (outputTranscription sc))
     | None => None
     end).

(** A session in progress: both contexts, the stream, the capture node and
    the transport are held. *)
Definition activeApp : App :=
  {| status := LISTENING; transcript := []; error := None;
     sessionPromiseRef := Some (Normal (mkSession 0));
     inputAudioContextRef := Some (mkContext 1 running);
     outputAudioContextRef := Some (mkContext 2 running);
     microphoneStreamRef := Some (mkStream [7%nat]);
     scriptProcessorRef := Some (mkProcessor 3);
     currentInputTranscriptionRef := ""; currentOutputTranscriptionRef := "";
     nextStartTimeRef := 0; playingSourcesRef := []; createdSources := 0 |}.

(** Surroundings in which every acquisition succeeds, and surroundings in
    which the microphone is refused. *)
Definition goodEnv : Env :=
  {| API_KEY := Some "key"%string;
     getUserMedia := Normal (mkStream [7%nat]);
     newAudioContext := fun rate =>
       Normal (mkContext (if Pos.eqb rate 16000 then 1 else 2) running);
     connect := Normal (mkSession 0) |}.

Definition deniedEnv : Env :=
  {| API_KEY := Some "key"%string;
     getUserMedia := Throw (mkError (Some "Permission denied"%string));
     newAudioContext := fun rate =>
       Normal (mkContext (if Pos.eqb rate 16000 then 1 else 2) running);
     connect := Normal (mkSession 0) |}.

(** The state after lines 127-148: only the transcript list and the two
    buffers can have changed. *)
Definition turn_update (tr : list TranscriptEntry) (ci co : string) (s : App) : App :=
  with_currentOutputTranscriptionRef co
    (with_currentInputTranscriptionRef ci (with_transcript tr s)).

Definition held {A} (r : option A) : bool :=
  match r with Some _ => true | None => false end.

(** The state after lines 162-172 for a decoded buffer. *)
Definition enqueued (audioBuffer : AudioBuffer) (s : App) : App :=
  with_playingSourcesRef
    (set_add (mkSource (createdSources s) audioBuffer) (playingSourcesRef s))
    (with_nextStartTimeRef (nextStartTimeRef s + duration audioBuffer)
       (with_createdSources (S (createdSources s)) s)).

(** Lines 155-182 in closed form. *)
Definition resume_result (k : Suspended) (s : App)
    : Completion unit * App * list Event :=
  match awaited k with
  | Throw e => (Throw e, s, [])
  | Normal audioBuffer =>
      let source := mkSource (createdSources s) audioBuffer in
      let started :=
        [SourceConnect source (audioContext k);
         SourceStart source (nextStartTimeRef s)] in
      if flag interrupted (suspendedMessage k) && held (outputAudioContextRef s)
      then (Normal tt, flushed (enqueued audioBuffer s),
            started ++ map SourceStop (playingSourcesRef (enqueued audioBuffer s)))
      else (Normal tt, enqueued audioBuffer s, started)
  end.

Section ClosedForms.

Variable decode : string -> Completion (list Z).
Variable decodeAudioData :
  list Z -> AudioContext -> positive -> nat -> Completion AudioBuffer.

(** Lines 150-155 and 175-182 in closed form, from the state [s1] reached
    after line 148. *)
Definition arrive_result (message : LiveServerMessage) (currentTime : Q)
    (s1 : App) : Completion (option Suspended) * App * list Event :=
  match inlineAudio message with
  | Throw e => (Throw e, s1, [])
  | Normal a =>
      match audio_branch a (outputAudioContextRef s1) with
      | Some (d, ctx) =>
          match decode d with
          | Normal bytes =>
              (Normal (Some (mkSuspended
                               (decodeAudioData bytes ctx 24000%positive 1%nat)
                               ctx message)),
               with_nextStartTimeRef (Qmax (nextStartTimeRef s1) currentTime) s1,
               [])
          | Throw e =>
              (Throw e,
               with_nextStartTimeRef (Qmax (nextStartTimeRef s1) currentTime) s1,
               [])
          end
      | None =>
          if flag interrupted message && held (outputAudioContextRef s1)
          then (Normal None, flushed s1, map SourceStop (playingSourcesRef s1))
          else (Normal None, s1, [])
      end
  end.

End ClosedForms.

(** A buffer of two frames of silence, the decoded form of the chunk
    ["AAAAAA=="]. *)
Definition twoFrames : AudioBuffer := mkAudioBuffer 24000 [[0 # 32768; 0 # 32768]].

(** The session after two such chunks have been enqueued at clock 0: the
    set holds two sources and the cursor is past both. *)
Definition playingApp : App :=
  final (onmessage codec_decode codec_decodeAudioData (audioMessage "AAAAAA==") 0
    (final (onmessage codec_decode codec_decodeAudioData (audioMessage "AAAAAA==") 0
       activeApp))).

(** A context just made by its constructor is not closed. *)
Definition env_ok (env : Env) : Prop :=
  forall rate c, newAudioContext env rate = Normal c -> is_closed c = false.

(** Sources and a cursor exist only with an output context: a held output
    context is not closed, and without one the set is empty and the cursor
    is 0. *)
Definition scheduler_inv (s : App) : Prop :=
  match outputAudioContextRef s with
  | Some c => is_closed c = false
  | None => playingSourcesRef s = [] /\ nextStartTimeRef s = 0
  end.

Section Reachable.

Variable decode : string -> Completion (list Z).
Variable decodeAudioData :
  list Z -> AudioContext -> positive -> nat -> Completion AudioBuffer.

(** The states the component goes through when its callbacks run one at a
    time, each to its end. *)
Inductive reachable : App -> Prop :=
| reach_mount : reachable initialApp
| reach_start (env : Env) (s : App) :
    env_ok env -> reachable s -> reachable (final (startConversation env s))
| reach_stop (s : App) :
    reachable s -> reachable (final (stopConversation s))
| reach_open (p : ScriptProcessorNode) (s : App) :
    reachable s -> reachable (final (onopen p s))
| reach_message (m : LiveServerMessage) (now : Q) (s : App) :
    reachable s ->
    reachable (final (onmessage decode decodeAudioData m now s))
| reach_error (e_message : string) (s : App) :
    reachable s -> reachable (final (onerror e_message s))
| reach_ended (x : AudioBufferSourceNode) (s : App) :
    reachable s -> reachable (final (onended x s)).

End Reachable.

(** What holds of a system between resets: the chunks started so far are in
    start order and do not overlap, each ends no later than the cursor, and
    no suspended call carries an interruption signal. *)
Definition between_resets (y : Sys) : Prop :=
  consecutive (fun p q : Q * Q => fst p <= fst q) (schedule (sysTrace y)) /\
  consecutive (fun p q : Q * Q => fst p + snd p <= fst q) (schedule (sysTrace y)) /\
  Forall (fun p : Q * Q =>
            fst p <= nextStartTimeRef (sysApp y) /\
            fst p + snd p <= nextStartTimeRef (sysApp y))
         (schedule (sysTrace y)) /\
  Forall (fun k => flag interrupted (suspendedMessage k) = false)
         (sysSuspended y).

(** One frame of silence. *)
Definition oneFrame : AudioBuffer := mkAudioBuffer 24000 [[0 # 32768]].

(* ================================================================== *)
(** ** The capture callback and further vocabulary *)

Section Capture.

(** [createBlob] of [utils/audioUtils] and the type of what it returns. *)
Variable WireBlob : Type.
Variable createBlob : list Q -> WireBlob.

(** [onaudioprocess] (lines 112-120): the block of samples is encoded, and
    when a session promise is held the blob is sent on the session it is
    fulfilled with.  The result is the call of [sendRealtimeInput] that is
    made, if any; the state is not changed. *)
Definition onaudioprocess (inputData : list Q) (s : App)
    : option (LiveSession * WireBlob) :=
  let pcmBlob := createBlob inputData in
  match sessionPromiseRef s with
  | Some (Normal session) => Some (session, pcmBlob)
  | Some (Throw _) => None
  | None => None
  end.

End Capture.

(** The [try] block of [startConversation] in closed form. *)
Definition acquire_result (env : Env) (s : App)
    : Completion unit * App * list Event :=
  if truthy (or_else (API_KEY env) "") then
    match getUserMedia env with
    | Throw e => (Throw e, s, [GetUserMedia])
    | Normal stream =>
        match newAudioContext env 16000 with
        | Throw e =>
            (Throw e, with_microphoneStreamRef (Some stream) s,
             [GetUserMedia; NewAudioContext 16000])
        | Normal ic =>
            match newAudioContext env 24000 with
            | Throw e =>
                (Throw e,
                 with_inputAudioContextRef (Some ic)
                   (with_microphoneStreamRef (Some stream) s),
                 [GetUserMedia; NewAudioContext 16000; NewAudioContext 24000])
            | Normal oc =>
                (Normal tt,
                 with_sessionPromiseRef (Some (connect env))
                   (with_outputAudioContextRef (Some oc)
                      (with_inputAudioContextRef (Some ic)
                         (with_microphoneStreamRef (Some stream) s))),
                 [GetUserMedia; NewAudioContext 16000; NewAudioContext 24000;
                  LiveConnect])
            end
        end
    end
  else
    (Throw (mkError (Some "API_KEY environment variable not set."%string)), s, []).

(** The state in which [startConversation] enters its [try] block. *)
Definition starting (s : App) : App :=
  with_transcript [] (with_error None (with_status PROCESSING s)).

(** The calls an inbound message can lead to. *)
Definition message_event (e : Event) : bool :=
  match e with
  | AppendTranscript _ | SourceConnect _ _ | SourceStart _ _ | SourceStop _ => true
  | _ => false
  end.

(** A held context that is not closed. *)
Definition open_context (r : option AudioContext) : Prop :=
  match r with
  | Some c => is_closed c = false
  | None => False
  end.

(** The stream, both contexts and the session promise are held. *)
Definition holding (s : App) : Prop :=
  microphoneStreamRef s <> None /\
  open_context (inputAudioContextRef s) /\
  open_context (outputAudioContextRef s) /\
  sessionPromiseRef s <> None.

(** What the status says about the resources. *)
Definition status_inv (s : App) : Prop :=
  match status s with
  | IDLE =>
      microphoneStreamRef s = None /\ scriptProcessorRef s = None /\
      inputAudioContextRef s = None /\ outputAudioContextRef s = None /\
      match sessionPromiseRef s with Some (Normal _) => False | _ => True end
  | PROCESSING => holding s
  | LISTENING => holding s /\ scriptProcessorRef s <> None
  end.

(** The sources of the set are distinct objects made earlier. *)
Definition sources_fresh (s : App) : Prop :=
  Forall (fun x => (sourceId x < createdSources s)%nat) (playingSourcesRef s) /\
  NoDup (map sourceId (playingSourcesRef s)).

(** A message with given transcription parts and turn-completion flag, and
    nothing else. *)
Definition transcriptionMessage (it ot : option Transcription)
    (tc : option bool) : LiveServerMessage :=
  mkMessage (Some (mkServerContent None tc None it ot)).

(** A message whose [modelTurn] has no [parts]. *)
Definition partlessMessage (tc ir : option bool)
    (it ot : option Transcription) : LiveServerMessage :=
  mkMessage (Some (mkServerContent (Some (mkContent None)) tc ir it ot)).


(* ================================================================== *)
(** * Properties of the codec *)

Module CodecFacts.
Import Codec.

Definition is_byte (z : Z) : Prop := (0 <= z < 256)%Z.
Definition is_int16 (z : Z) : Prop := (-32768 <= z <= 32767)%Z.

Lemma sextet_table :
  forallb (fun k =>
             match char_sextet (sextet_char (Z.of_nat k)) with
             | Some m => Z.eqb m (Z.of_nat k)
             | None => false
             end && negb (Ascii.eqb (sextet_char (Z.of_nat k)) pad))
          (seq 0 64) = true.
Proof. vm_compute. reflexivity. Qed.

Lemma sextet_entry (n : Z) :
  (0 <= n < 64)%Z ->
  char_sextet (sextet_char n) = Some n /\ Ascii.eqb (sextet_char n) pad = false.
Proof.
  intros Hn.
  pose proof sextet_table as T.
  rewrite forallb_forall in T.
  specialize (T (Z.to_nat n)).
  rewrite Z2Nat.id in T by lia.
  assert (Hin : In (Z.to_nat n) (seq 0 64)) by (apply in_seq; lia).
  apply T in Hin. apply andb_true_iff in Hin. destruct Hin as [H1 H2].
  split.
  - destruct (char_sextet (sextet_char n)) as [m|]; [|discriminate].
    apply Z.eqb_eq in H1. now subst.
  - now apply negb_true_iff in H2.
Qed.

Lemma char_sextet_char (n : Z) :
  (0 <= n < 64)%Z -> char_sextet (sextet_char n) = Some n.
Proof. intros; now apply sextet_entry. Qed.

Lemma sextet_char_not_pad (n : Z) :
  (0 <= n < 64)%Z -> Ascii.eqb (sextet_char n) pad = false.
Proof. intros; now apply sextet_entry. Qed.

(** The arithmetic of regrouping 8-bit values into 6-bit values. *)
Lemma regroup_ranges (a b c : Z) :
  is_byte a -> is_byte b -> is_byte c ->
  (0 <= a / 4 < 64 /\ 0 <= (a mod 4) * 16 + b / 16 < 64 /\
   0 <= (b mod 16) * 4 + c / 64 < 64 /\ 0 <= c mod 64 < 64)%Z.
Proof.
  unfold is_byte; intros. Z.div_mod_to_equations. lia.
Qed.

Lemma regroup_first (a b : Z) :
  is_byte a -> is_byte b ->
  (a / 4 * 4 + ((a mod 4) * 16 + b / 16) / 16 = a)%Z.
Proof.
  unfold is_byte; intros.
  assert (E : (((a mod 4) * 16 + b / 16) / 16 = a mod 4)%Z).
  { rewrite Z.add_comm, Z.div_add by lia.
    rewrite (Z.div_small (b / 16)); [lia|]. Z.div_mod_to_equations. lia. }
  rewrite E. Z.div_mod_to_equations. lia.
Qed.

Lemma regroup_second (a b c : Z) :
  is_byte a -> is_byte b -> is_byte c ->
  ((((a mod 4) * 16 + b / 16) mod 16) * 16 + ((b mod 16) * 4 + c / 64) / 4 = b)%Z.
Proof.
  unfold is_byte; intros.
  assert (E1 : (((a mod 4) * 16 + b / 16) mod 16 = b / 16)%Z).
  { rewrite Z.add_comm, Z.mod_add by lia.
    apply Z.mod_small. Z.div_mod_to_equations. lia. }
  assert (E2 : (((b mod 16) * 4 + c / 64) / 4 = b mod 16)%Z).
  { rewrite Z.add_comm, Z.div_add by lia.
    rewrite (Z.div_small (c / 64)); [lia|]. Z.div_mod_to_equations. lia. }
  rewrite E1, E2. Z.div_mod_to_equations. lia.
Qed.

Lemma regroup_third (b c : Z) :
  is_byte b -> is_byte c ->
  ((((b mod 16) * 4 + c / 64) mod 4) * 64 + c mod 64 = c)%Z.
Proof.
  unfold is_byte; intros.
  assert (E : (((b mod 16) * 4 + c / 64) mod 4 = c / 64)%Z).
  { rewrite Z.add_comm, Z.mod_add by lia.
    apply Z.mod_small. Z.div_mod_to_equations. lia. }
  rewrite E. Z.div_mod_to_equations. lia.
Qed.

Lemma is_byte_0 : is_byte 0.
Proof. unfold is_byte; lia. Qed.

Lemma base64_encode_cons (a : Z) (l : list Z) :
  base64_encode (a :: l) <> [].
Proof. destruct l as [|b [|c l]]; discriminate. Qed.

Lemma base64_decode_encode_bounded (n : nat) :
  forall bs, (List.length bs <= n)%nat -> Forall is_byte bs ->
             base64_decode (base64_encode bs) = Some bs.
Proof.
  induction n as [|n IH]; intros bs Hlen Hb.
  - destruct bs; [reflexivity | simpl in Hlen; lia].
  - destruct bs as [|a [|b [|c rest]]]; [reflexivity| | |].
    + inversion_clear Hb as [|? ? Ha _].
      destruct (regroup_ranges Ha is_byte_0 is_byte_0) as (R1 & R2 & _).
      change (0 / 16)%Z with 0%Z in R2. rewrite Z.add_0_r in R2.
      cbn [base64_encode base64_decode].
      rewrite (char_sextet_char R1), (char_sextet_char R2).
      change (Ascii.eqb pad pad) with true. cbv iota.
      pose proof (regroup_first Ha is_byte_0) as E.
      change (0 / 16)%Z with 0%Z in E. rewrite Z.add_0_r in E.
      now rewrite E.
    + inversion_clear Hb as [|? ? Ha Hb']. inversion_clear Hb' as [|? ? Hb _].
      destruct (regroup_ranges Ha Hb is_byte_0) as (R1 & R2 & R3 & _).
      change (0 / 64)%Z with 0%Z in R3. rewrite Z.add_0_r in R3.
      cbn [base64_encode base64_decode].
      rewrite (char_sextet_char R1), (char_sextet_char R2).
      change (Ascii.eqb pad pad) with true. cbv iota.
      rewrite (sextet_char_not_pad R3), (char_sextet_char R3).
      pose proof (regroup_second Ha Hb is_byte_0) as E.
      change (0 / 64)%Z with 0%Z in E. rewrite Z.add_0_r in E.
      now rewrite (regroup_first Ha Hb), E.
    + inversion_clear Hb as [|? ? Ha Hb']. inversion_clear Hb' as [|? ? Hb Hb''].
      inversion_clear Hb'' as [|? ? Hc Hrest].
      destruct (regroup_ranges Ha Hb Hc) as (R1 & R2 & R3 & R4).
      assert (IHrest : base64_decode (base64_encode rest) = Some rest).
      { apply IH; [simpl in Hlen; lia | assumption]. }
      cbn [base64_encode base64_decode].
      rewrite (char_sextet_char R1), (char_sextet_char R2).
      rewrite (char_sextet_char R3), (char_sextet_char R4).
      rewrite (sextet_char_not_pad R4).
      rewrite (regroup_first Ha Hb), (regroup_second Ha Hb Hc),
        (regroup_third Hb Hc).
      destruct rest as [|r rest'].
      * reflexivity.
      * destruct (base64_encode (r :: rest')) eqn:E.
        -- now apply base64_encode_cons in E.
        -- now rewrite IHrest.
Qed.

(** Base64 decoding inverts base64 encoding on byte sequences. *)
Lemma base64_decode_encode (bs : list Z) :
  Forall is_byte bs -> base64_decode (base64_encode bs) = Some bs.
Proof. intros. now apply (@base64_decode_encode_bounded (List.length bs)). Qed.

(** Little-endian packing of signed 16-bit integers. *)
Lemma int16_bytes_range (z : Z) : Forall is_byte (int16_bytes z).
Proof.
  unfold int16_bytes, is_byte.
  repeat constructor; apply Z.mod_pos_bound; lia.
Qed.

Lemma int16_of_bytes_bytes (z : Z) :
  is_int16 z -> int16_of_bytes (z mod 256) ((z / 256) mod 256) = z.
Proof.
  unfold is_int16, int16_of_bytes; intros H.
  cbv zeta.
  destruct (Z.leb_spec 32768 (z mod 256 + 256 * ((z / 256) mod 256)));
    Z.div_mod_to_equations; lia.
Qed.

Lemma clamp16_range (z : Z) : is_int16 (clamp16 z).
Proof. unfold is_int16, clamp16; lia. Qed.

Lemma pcm_bytes_range (samples : list Q) : Forall is_byte (pcm_bytes samples).
Proof.
  unfold pcm_bytes. induction samples as [|x l IH].
  - constructor.
  - cbn [flat_map]. apply Forall_app.
    split; [apply int16_bytes_range | exact IH].
Qed.

Lemma pcm_bytes_length (samples : list Q) :
  List.length (pcm_bytes samples) = (2 * List.length samples)%nat.
Proof.
  unfold pcm_bytes. induction samples as [|x l IH]; simpl in *; [reflexivity|].
  rewrite IH. lia.
Qed.

Lemma int16_samples_pcm_bytes (samples : list Q) :
  int16_samples (pcm_bytes samples) = map sample_to_int16 samples.
Proof.
  unfold pcm_bytes. induction samples as [|x l IH]; [reflexivity|].
  cbn [flat_map int16_bytes app int16_samples map].
  rewrite IH, int16_of_bytes_bytes; [reflexivity | apply clamp16_range].
Qed.

Lemma every_nth_mono {A : Type} (l : list A) : every_nth 1 0 l = l.
Proof. induction l as [|x l IH]; simpl; [reflexivity | now rewrite IH]. Qed.

(** [decode] inverts the packing and wrapping done by [encode]. *)
Lemma decode_encode (samples : list Q) :
  decode (encode samples) = Some (pcm_bytes samples).
Proof.
  unfold decode, encode.
  rewrite list_ascii_of_string_of_list_ascii.
  apply base64_decode_encode, pcm_bytes_range.
Qed.

Lemma decodeAudioData_pcm_bytes (samples : list Q) (rate : positive) :
  decodeAudioData (pcm_bytes samples) rate 1 =
  Some (mkAudioBuffer rate
          [map (fun x => sample_to_int16 x # 32768) samples]).
Proof.
  unfold decodeAudioData.
  rewrite pcm_bytes_length.
  replace ((2 * List.length samples) mod (2 * 1))%nat with 0%nat.
  2:{ symmetry. change (2 * 1)%nat with 2%nat.
      rewrite Nat.mul_comm. apply Nat.Div0.mod_mul. }
  cbn [Nat.eqb seq map].
  rewrite every_nth_mono, int16_samples_pcm_bytes, map_map.
  reflexivity.
Qed.

(** The quantisation of one sample. *)
Lemma Qmake_inject (z : Z) (p : positive) : z # p == inject_Z z * (1 # p).
Proof. unfold Qeq, Qmult, inject_Z; simpl. lia. Qed.

Lemma js_round_bounds (q : Q) :
  inject_Z (js_round q) <= q + (1 # 2) /\ q - (1 # 2) < inject_Z (js_round q).
Proof.
  unfold js_round.
  pose proof (Qfloor_le (q + (1 # 2))) as L.
  pose proof (Qlt_floor (q + (1 # 2))) as U.
  rewrite inject_Z_plus in U. change (inject_Z 1) with 1 in U.
  split; [exact L|]. lra.
Qed.

Lemma js_round_unit (x : Q) :
  -1 <= x -> x <= 1 ->
  (-32767 <= js_round (x * 32767) <= 32767)%Z.
Proof.
  intros Hl Hu. unfold js_round. split.
  - change (-32767)%Z with (Qfloor (inject_Z (-32767))).
    apply Qfloor_resp_le. change (inject_Z (-32767)) with (-32767 # 1). lra.
  - change 32767%Z with (Qfloor (32767 + (1 # 2))) at 2.
    apply Qfloor_resp_le. lra.
Qed.

Lemma sample_to_int16_unit (x : Q) :
  -1 <= x -> x <= 1 -> sample_to_int16 x = js_round (x * 32767).
Proof.
  intros Hl Hu. pose proof (js_round_unit Hl Hu).
  unfold sample_to_int16, clamp16. lia.
Qed.

Lemma sample_error (x : Q) :
  -1 <= x -> x <= 1 ->
  Qabs ((sample_to_int16 x # 32768) - x) <= 3 # 65536.
Proof.
  intros Hl Hu.
  rewrite (sample_to_int16_unit Hl Hu).
  destruct (js_round_bounds (x * 32767)) as [L U].
  apply Qabs_Qle_condition.
  rewrite (Qmake_inject (js_round (x * 32767)) 32768).
  split; lra.
Qed.

End CodecFacts.

(* ================================================================== *)
(** * Round trip of the codec *)

(** C9, as amended.  For every sample sequence with values in [-1, 1],
    encoding ([round(sample * 32767)], clamped, packed little-endian,
    base64) followed by [decode] and [decodeAudioData] ([value / 32768])
    succeeds and yields one channel of the same length, each of whose
    samples differs from the original by at most 3/65536, that is one and a
    half steps of 1/32768. *)
Theorem roundtrip_quantisation_error (samples : list Q) (rate : positive) :
  Forall (fun x => -1 <= x /\ x <= 1) samples ->
  exists out,
    roundtrip samples rate = Some (mkAudioBuffer rate [out]) /\
    List.length out = List.length samples /\
    Forall2 (fun x y => Qabs (y - x) <= 3 # 65536) samples out.
Proof.
  intros Hrange.
  exists (map (fun x => Codec.sample_to_int16 x # 32768) samples).
  unfold roundtrip.
  rewrite CodecFacts.decode_encode, CodecFacts.decodeAudioData_pcm_bytes.
  split; [reflexivity|]. split; [apply length_map|].
  induction Hrange as [|x l [Hl Hu] _ IH]; cbn [map]; constructor.
  - now apply CodecFacts.sample_error.
  - exact IH.
Qed.

Lemma roundtrip_quantisation_error_witness :
  exists out,
    roundtrip [0; 1; -1; 1 # 2] 24000 = Some (mkAudioBuffer 24000 [out]) /\
    List.length out = List.length [0; 1; -1; 1 # 2] /\
    Forall2 (fun x y => Qabs (y - x) <= 3 # 65536) [0; 1; -1; 1 # 2] out.
Proof.
  apply (@roundtrip_quantisation_error [0; 1; -1; 1 # 2] 24000).
  repeat constructor; vm_compute; discriminate.
Defined.

(** C9, as stated, fails: the sample 1048559/1048576 (a binary fraction
    just under 1) lies in [-1, 1]; [round(sample * 32767)] is 32766, so the
    round trip returns 32766/32768, which is 47/1048576 away from the
    sample, more than 1/32768 = 32/1048576. *)
Lemma roundtrip_error_exceeds_one_step :
  (-1 <= 1048559 # 1048576 /\ 1048559 # 1048576 <= 1) /\
  roundtrip [1048559 # 1048576] 24000 =
    Some (mkAudioBuffer 24000 [[32766 # 32768]]) /\
  ~ (Qabs ((32766 # 32768) - (1048559 # 1048576)) <= 1 # 32768).
Proof.
  split; [split; vm_compute; discriminate|].
  split; [vm_compute; reflexivity|].
  vm_compute. intros H. apply H. reflexivity.
Qed.

(* ================================================================== *)
(** * Properties of the callbacks *)

Lemma for_each_emit {A} (f : A -> Event) (l : list A) (s : App) :
  for_each l (fun x s' => (Normal tt, s', [f x])) s = (Normal tt, s, map f l).
Proof.
  induction l as [|x l IH]; [reflexivity|].
  cbn [for_each map]. unfold bind at 1.
  now rewrite IH.
Qed.

(** [stopConversation] in closed form: it always completes normally. *)
Lemma stopConversation_eq (s : App) :
  stopConversation s = (Normal tt, stopped_state s, stop_trace s).
Proof.
  destruct s as [st tr er sp ic oc mic pr ci co nx pl cr].
  unfold stopConversation, stopped_state, stop_trace, keep_if_closed.
  destruct sp as [[session|e]|], mic as [[tracks]|], pr as [node|],
    ic as [[ ? [| |] ]|], oc as [[ ? [| |] ]|];
    cbv [bind try_catch setStatus gets modify emit await ret throw when
         is_closed negb state];
    cbn [sessionPromiseRef microphoneStreamRef scriptProcessorRef
         inputAudioContextRef outputAudioContextRef playingSourcesRef
         getTracks with_status with_sessionPromiseRef
         with_microphoneStreamRef with_scriptProcessorRef
         with_inputAudioContextRef with_outputAudioContextRef
         with_playingSourcesRef];
    repeat (rewrite for_each_emit;
            cbn [sessionPromiseRef microphoneStreamRef scriptProcessorRef
                 inputAudioContextRef outputAudioContextRef playingSourcesRef
                 getTracks with_status with_sessionPromiseRef
                 with_microphoneStreamRef with_scriptProcessorRef
                 with_inputAudioContextRef with_outputAudioContextRef
                 with_playingSourcesRef]);
    cbn; rewrite ?app_nil_r, <- ?app_assoc; reflexivity.
Qed.

Lemma filter_release_tracks (l : list nat) :
  filter is_release (map TrackStop l) = map TrackStop l.
Proof. induction l as [|x l IH]; simpl; [reflexivity | now rewrite IH]. Qed.

Lemma filter_release_sources (l : list AudioBufferSourceNode) :
  filter is_release (map SourceStop l) = map SourceStop l.
Proof. induction l as [|x l IH]; simpl; [reflexivity | now rewrite IH]. Qed.

Lemma stop_trace_releases (s : App) :
  filter is_release (stop_trace s) = release_order s.
Proof.
  unfold stop_trace, release_order.
  rewrite !filter_app.
  destruct (sessionPromiseRef s) as [[?|?]|], (microphoneStreamRef s),
    (scriptProcessorRef s), (inputAudioContextRef s) as [ic|],
    (outputAudioContextRef s) as [oc|];
    try destruct (is_closed ic); try destruct (is_closed oc);
    rewrite ?filter_app, ?filter_release_tracks, ?filter_release_sources;
    cbn [filter is_release app]; rewrite ?app_nil_r; reflexivity.
Qed.

Lemma stopped_state_released (s : App) : released (stopped_state s).
Proof.
  unfold released, stopped_state, keep_if_closed, is_closed; cbn.
  destruct (sessionPromiseRef s) as [[?|?]|],
    (inputAudioContextRef s) as [[? [| |]]|],
    (outputAudioContextRef s) as [[? [| |]]|]; cbn; auto.
Qed.

Lemma stopped_state_idempotent (s : App) :
  stopped_state (stopped_state s) = stopped_state s.
Proof.
  unfold stopped_state, keep_if_closed, is_closed; cbn.
  destruct (sessionPromiseRef s) as [[?|?]|],
    (inputAudioContextRef s) as [[? [| |]]|],
    (outputAudioContextRef s) as [[? [| |]]|]; reflexivity.
Qed.

Lemma release_order_stopped (s : App) : release_order (stopped_state s) = [].
Proof.
  unfold release_order, stopped_state, keep_if_closed, is_closed; cbn.
  destruct (sessionPromiseRef s) as [[?|?]|],
    (inputAudioContextRef s) as [[? [| |]]|],
    (outputAudioContextRef s) as [[? [| |]]|]; reflexivity.
Qed.

Lemma onerror_eq (e_message : string) (s : App) :
  onerror e_message s =
  (Normal tt,
   stopped_state (with_error (Some ("Connection error: " ++ e_message)%string) s),
   ConsoleError "API Error:"
   :: SetError (Some ("Connection error: " ++ e_message)%string)
   :: stop_trace (with_error (Some ("Connection error: " ++ e_message)%string) s)).
Proof.
  unfold onerror, setError.
  cbv [bind emit modify]. rewrite stopConversation_eq. reflexivity.
Qed.

Lemma startFailed_eq (err : JsError) (s : App) :
  startFailed err s =
  (Normal tt,
   stopped_state
     (with_error (Some (or_else (message err) "An unexpected error occurred.")) s),
   ConsoleError "Failed to start conversation:"
   :: SetError (Some (or_else (message err) "An unexpected error occurred."))
   :: stop_trace
        (with_error (Some (or_else (message err) "An unexpected error occurred.")) s)).
Proof.
  unfold startFailed, setError.
  cbv [bind emit modify]. rewrite stopConversation_eq. reflexivity.
Qed.

Lemma or_else_truthy (a : option string) (b : string) :
  truthy b = true -> truthy (or_else a b) = true.
Proof.
  intros Hb. unfold or_else.
  destruct a as [x|]; [|exact Hb].
  destruct (truthy x) eqn:E; [exact E | exact Hb].
Qed.

(** The [try] block touches neither the transcript nor the error
    message. *)
Lemma acquire_frame (env : Env) (s : App) :
  transcript (final (acquire env s)) = transcript s /\
  error (final (acquire env s)) = error s.
Proof.
  unfold acquire.
  destruct env as [key media ctor conn]; cbn [API_KEY getUserMedia newAudioContext connect].
  destruct (truthy (or_else key "")), media as [stream|e1],
    (ctor 16000%positive) as [ic|e2] eqn:E1,
    (ctor 24000%positive) as [oc|e3] eqn:E2;
    cbv [bind when negb throw emit await ret modify final fst snd];
    rewrite ?E1; cbv [bind when negb throw emit await ret modify final fst snd];
    rewrite ?E2; cbn; auto.
Qed.

(* ================================================================== *)
(** * Teardown *)

(** C5.  Every teardown, started by [stopConversation] or by a transport
    error ([onerror]), completes normally and releases in the fixed order:
    transport session, microphone tracks, capture node, input context,
    playing sources and output context (each step present when its resource
    is held); it ends with both transcript buffers empty, the cursor at 0,
    the status [IDLE] and no acquired resource held. *)
Theorem teardown_order (s : App) (e_message : string) :
  (completion (stopConversation s) = Normal tt /\
   filter is_release (trace (stopConversation s)) = release_order s /\
   status (final (stopConversation s)) = IDLE /\
   currentInputTranscriptionRef (final (stopConversation s)) = ""%string /\
   currentOutputTranscriptionRef (final (stopConversation s)) = ""%string /\
   nextStartTimeRef (final (stopConversation s)) = 0 /\
   released (final (stopConversation s))) /\
  (completion (onerror e_message s) = Normal tt /\
   filter is_release (trace (onerror e_message s)) = release_order s /\
   status (final (onerror e_message s)) = IDLE /\
   currentInputTranscriptionRef (final (onerror e_message s)) = ""%string /\
   currentOutputTranscriptionRef (final (onerror e_message s)) = ""%string /\
   nextStartTimeRef (final (onerror e_message s)) = 0 /\
   released (final (onerror e_message s))).
Proof.
  rewrite onerror_eq, stopConversation_eq.
  unfold completion, trace, final; cbn [fst snd].
  cbn [filter is_release]. rewrite !stop_trace_releases.
  repeat match goal with |- _ /\ _ => split end;
    try reflexivity; apply stopped_state_released.
Qed.

(** C6.  A second [stopConversation] right after a first one completes
    normally, makes no release call at all, and leaves the state as the
    first call left it; over both calls every release due is made exactly
    once. *)
Theorem stop_idempotent (s : App) :
  completion (stopConversation (final (stopConversation s))) = Normal tt /\
  filter is_release (trace (stopConversation (final (stopConversation s)))) = [] /\
  final (stopConversation (final (stopConversation s))) =
    final (stopConversation s) /\
  filter is_release
    (trace (stopConversation s) ++
     trace (stopConversation (final (stopConversation s)))) = release_order s.
Proof.
  rewrite (stopConversation_eq s).
  unfold final; cbn [fst snd].
  rewrite (stopConversation_eq (stopped_state s)).
  unfold completion, trace; cbn [fst snd].
  rewrite filter_app, !stop_trace_releases, release_order_stopped, app_nil_r.
  repeat match goal with |- _ /\ _ => split end;
    try reflexivity; apply stopped_state_idempotent.
Qed.

(* ================================================================== *)
(** * Starting and aborting *)

Lemma start_unchanged (env : Env) (s : App) :
  status s <> IDLE -> final (startConversation env s) = s.
Proof.
  intros H. unfold startConversation, bind, gets.
  destruct (status s); [contradiction| |]; reflexivity.
Qed.

(** C7.  [startConversation] called while the status is not [IDLE] returns
    at its guard: the state is unchanged and no call is made, so nothing is
    acquired and no transport is opened. *)
Theorem start_guard (env : Env) (s : App) :
  status s <> IDLE -> startConversation env s = (Normal tt, s, []).
Proof.
  intros H. unfold startConversation, bind, gets.
  destruct (status s); [contradiction| |]; reflexivity.
Qed.

Lemma start_guard_witness :
  startConversation goodEnv activeApp = (Normal tt, activeApp, []).
Proof.
  apply (@start_guard goodEnv activeApp). discriminate.
Defined.

Lemma startConversation_idle (env : Env) (s : App) :
  status s = IDLE ->
  startConversation env s =
  (let '(r, s2, t2) :=
     try_catch (acquire env) startFailed
       (with_transcript [] (with_error None (with_status PROCESSING s))) in
   (r, s2, SetStatus PROCESSING :: SetError None :: SetTranscript [] :: t2)).
Proof.
  intros H. unfold startConversation.
  unfold bind at 1. unfold gets at 1. rewrite H. cbn [ConversationStatus_eqb negb].
  cbv [bind setStatus setError setTranscript emit modify].
  destruct (try_catch (acquire env) startFailed _) as [[r s2] t2].
  reflexivity.
Qed.

Lemma try_start_transcript (env : Env) (s : App) :
  transcript (final (try_catch (acquire env) startFailed s)) = transcript s.
Proof.
  pose proof (acquire_frame env s) as [Ht _].
  unfold try_catch.
  destruct (acquire env s) as [[[a|e] s1] t1]; unfold final in *; cbn [fst snd] in *.
  - exact Ht.
  - rewrite startFailed_eq. cbn [fst snd]. exact Ht.
Qed.

(** C10.  [startConversation] called with status [IDLE] first calls
    [setStatus(PROCESSING)], [setError(null)] and [setTranscript([])], before
    any acquisition or connection; whatever happens next, the transcript
    list is empty when the call is over.  [stopConversation] and [onerror]
    leave the list as it is. *)
Theorem start_resets_transcript (env : Env) (s : App) (e_message : string) :
  status s = IDLE ->
  (exists rest,
     trace (startConversation env s) =
     SetStatus PROCESSING :: SetError None :: SetTranscript [] :: rest) /\
  transcript (final (startConversation env s)) = [] /\
  transcript (final (stopConversation s)) = transcript s /\
  transcript (final (onerror e_message s)) = transcript s.
Proof.
  intros H.
  rewrite (@startConversation_idle env s H), stopConversation_eq, onerror_eq.
  pose proof (try_start_transcript env
    (with_transcript [] (with_error None (with_status PROCESSING s)))) as T.
  destruct (try_catch (acquire env) startFailed _) as [[r s2] t2].
  unfold trace, final in *; cbn [fst snd] in *.
  repeat match goal with |- _ /\ _ => split end; try reflexivity.
  - now exists t2.
  - exact T.
Qed.

Lemma start_resets_transcript_witness :
  (exists rest,
     trace (startConversation deniedEnv
              (with_transcript [mkEntry user "hello"] initialApp)) =
     SetStatus PROCESSING :: SetError None :: SetTranscript [] :: rest) /\
  transcript (final (startConversation deniedEnv
                       (with_transcript [mkEntry user "hello"] initialApp))) = [] /\
  transcript (final (stopConversation
                       (with_transcript [mkEntry user "hello"] initialApp))) =
    transcript (with_transcript [mkEntry user "hello"] initialApp) /\
  transcript (final (onerror "lost"
                       (with_transcript [mkEntry user "hello"] initialApp))) =
    transcript (with_transcript [mkEntry user "hello"] initialApp).
Proof.
  apply (@start_resets_transcript deniedEnv
           (with_transcript [mkEntry user "hello"] initialApp) "lost").
  reflexivity.
Defined.

(* ================================================================== *)
(** * Transcript aggregation *)

Lemma completeTurn_eq (s : App) :
  completeTurn s =
  (Normal tt,
   with_currentOutputTranscriptionRef ""
     (with_currentInputTranscriptionRef ""
        (with_transcript (transcript s ++ turn_entries s) s)),
   map AppendTranscript (turn_entries s)).
Proof.
  unfold completeTurn, turn_entries.
  cbv [bind gets when appendTranscript emit modify ret].
  destruct (truthy (trim (currentInputTranscriptionRef s))),
    (truthy (trim (currentOutputTranscriptionRef s)));
    cbn; rewrite <- ?app_assoc, ?app_nil_r; reflexivity.
Qed.

Section Aggregator.

Variable decode : string -> Completion (list Z).
Variable decodeAudioData :
  list Z -> AudioContext -> positive -> nat -> Completion AudioBuffer.

Lemma onmessage_turnComplete (now : Q) (s : App) :
  onmessage decode decodeAudioData turnCompleteMessage now s = completeTurn s.
Proof.
  unfold onmessage, onmessage_arrive, transcripts.
  cbn [turnCompleteMessage appendFragment optional serverContent
       outputTranscription inputTranscription flag turnComplete when].
  cbv [bind await inlineAudio optional serverContent turnCompleteMessage
       modelTurn ret gets audio_branch interruption flag interrupted
       when andb].
  rewrite completeTurn_eq. cbn [app]. now rewrite !app_nil_r.
Qed.

Lemma onmessage_inputFragment (t : string) (now : Q) (s : App) :
  onmessage decode decodeAudioData (inputFragment t) now s =
  (Normal tt,
   with_currentInputTranscriptionRef (currentInputTranscriptionRef s ++ t) s,
   []).
Proof. reflexivity. Qed.

Lemma onmessage_outputFragment (t : string) (now : Q) (s : App) :
  onmessage decode decodeAudioData (outputFragment t) now s =
  (Normal tt,
   with_currentOutputTranscriptionRef (currentOutputTranscriptionRef s ++ t) s,
   []).
Proof. reflexivity. Qed.

(** C4.  The [turnComplete] block trims both buffers, appends one entry per
    buffer that is not empty after trimming, the user's first and the
    assistant's (speaker ['gemini']) second, and then clears both buffers
    whether or not anything was appended; a message that only signals turn
    completion does exactly this.  The fragments user "hel", user "lo",
    assistant "hi" followed by a turn completion append exactly
    [{user, "hello"}; {gemini, "hi"}]; with both buffers empty nothing is
    appended. *)
Theorem completeTurn_entries (s : App) (now : Q) :
  (completion (completeTurn s) = Normal tt /\
   trace (completeTurn s) = map AppendTranscript (turn_entries s) /\
   transcript (final (completeTurn s)) = transcript s ++ turn_entries s /\
   currentInputTranscriptionRef (final (completeTurn s)) = ""%string /\
   currentOutputTranscriptionRef (final (completeTurn s)) = ""%string) /\
  onmessage decode decodeAudioData turnCompleteMessage now s = completeTurn s /\
  (transcript
     (final (onmessages decode decodeAudioData
               [(inputFragment "hel", now); (inputFragment "lo", now);
                (outputFragment "hi", now); (turnCompleteMessage, now)]
               (with_currentInputTranscriptionRef ""
                  (with_currentOutputTranscriptionRef "" s)))) =
   transcript s ++ [mkEntry user "hello"; mkEntry gemini "hi"] /\
   currentInputTranscriptionRef
     (final (onmessages decode decodeAudioData
               [(inputFragment "hel", now); (inputFragment "lo", now);
                (outputFragment "hi", now); (turnCompleteMessage, now)]
               (with_currentInputTranscriptionRef ""
                  (with_currentOutputTranscriptionRef "" s)))) = ""%string /\
   currentOutputTranscriptionRef
     (final (onmessages decode decodeAudioData
               [(inputFragment "hel", now); (inputFragment "lo", now);
                (outputFragment "hi", now); (turnCompleteMessage, now)]
               (with_currentInputTranscriptionRef ""
                  (with_currentOutputTranscriptionRef "" s)))) = ""%string) /\
  (trace (completeTurn (with_currentInputTranscriptionRef ""
                          (with_currentOutputTranscriptionRef "" s))) = [] /\
   transcript
     (final (completeTurn (with_currentInputTranscriptionRef ""
                             (with_currentOutputTranscriptionRef "" s)))) =
   transcript s).
Proof.
  split; [|split; [|split]].
  - rewrite completeTurn_eq. repeat split.
  - apply onmessage_turnComplete.
  - unfold onmessages.
    rewrite !onmessage_inputFragment. cbv beta iota zeta.
    rewrite onmessage_outputFragment. cbv beta iota zeta.
    rewrite onmessage_turnComplete, completeTurn_eq.
    unfold final; cbn [fst snd].
    repeat split.
  - rewrite completeTurn_eq. unfold trace, final; cbn. split; [reflexivity|].
    apply app_nil_r.
Qed.

End Aggregator.

(* ================================================================== *)
(** * The handler of inbound messages in closed form *)

Lemma flush_eq (s : App) :
  flush s = (Normal tt, flushed s, map SourceStop (playingSourcesRef s)).
Proof.
  unfold flush, flushed. cbv [bind gets modify emit].
  rewrite for_each_emit. cbn. now rewrite app_nil_r.
Qed.

Lemma interruption_eq (message : LiveServerMessage) (s : App) :
  interruption message s =
  if flag interrupted message && held (outputAudioContextRef s)
  then flush s else (Normal tt, s, []).
Proof.
  unfold interruption, held. cbv [bind gets when].
  destruct (flag interrupted message), (outputAudioContextRef s); cbn [andb].
  - destruct (flush s) as [[r s2] t2]; reflexivity.
  - reflexivity.
  - reflexivity.
  - reflexivity.
Qed.

Lemma schedule_app (t1 t2 : list Event) :
  schedule (t1 ++ t2) = schedule t1 ++ schedule t2.
Proof.
  induction t1 as [|e t1 IH]; [reflexivity|].
  destruct e; cbn [app schedule]; now rewrite IH.
Qed.

Lemma stopped_app (t1 t2 : list Event) :
  stopped (t1 ++ t2) = stopped t1 ++ stopped t2.
Proof.
  induction t1 as [|e t1 IH]; [reflexivity|].
  destruct e; cbn [app stopped]; now rewrite IH.
Qed.

Lemma schedule_stops (l : list AudioBufferSourceNode) :
  schedule (map SourceStop l) = [].
Proof. induction l; [reflexivity | assumption]. Qed.

Lemma stopped_stops (l : list AudioBufferSourceNode) :
  stopped (map SourceStop l) = l.
Proof. induction l as [|x l IH]; [reflexivity | cbn; now rewrite IH]. Qed.


Lemma appends_silent (l : list TranscriptEntry) :
  schedule (map AppendTranscript l) = [] /\
  stopped (map AppendTranscript l) = [] /\
  filter is_release (map AppendTranscript l) = [].
Proof. induction l; [repeat split | assumption]. Qed.

Ltac unfold_updates :=
  unfold turn_update, with_currentOutputTranscriptionRef,
    with_currentInputTranscriptionRef, with_transcript; cbn.

(** Lines 127-148 complete normally, change only the transcript list and
    the two buffers, and call only [setTranscript]. *)
Lemma transcripts_result (message : LiveServerMessage) (s : App) :
  exists tr ci co l,
    transcripts message s =
    (Normal tt, turn_update tr ci co s, map AppendTranscript l).
Proof.
  destruct s as [st tr er sp ic oc mic pr ci co nx pl cr].
  unfold transcripts, appendFragment, optional, flag.
  destruct message as [[[mt tc ir it ot]|]];
    cbn [serverContent outputTranscription inputTranscription turnComplete optional].
  - destruct ot as [o|], it as [i|], tc as [[|]|];
      cbv [bind modify ret when]; rewrite ?completeTurn_eq;
      cbn [app]; rewrite ?app_nil_r;
      try (do 4 eexists; unfold_updates; reflexivity);
      try (exists tr; do 2 eexists; exists []; unfold_updates; reflexivity).
  - exists tr, ci, co, []. reflexivity.
Qed.

Lemma onmessage_resume_eq (k : Suspended) (s : App) :
  onmessage_resume k s = resume_result k s.
Proof.
  unfold onmessage_resume, resume_result.
  destruct (awaited k) as [audioBuffer|e]; [|reflexivity].
  cbv [bind await ret gets modify emit].
  rewrite interruption_eq.
  change (outputAudioContextRef _) with (outputAudioContextRef s).
  destruct (flag interrupted (suspendedMessage k) && held (outputAudioContextRef s)).
  - rewrite flush_eq. reflexivity.
  - reflexivity.
Qed.

Section Handler.

Variable decode : string -> Completion (list Z).
Variable decodeAudioData :
  list Z -> AudioContext -> positive -> nat -> Completion AudioBuffer.

Lemma onmessage_arrive_eq (message : LiveServerMessage) (now : Q) (s : App) :
  onmessage_arrive decode decodeAudioData message now s =
  let '(r, s2, t2) :=
    arrive_result decode decodeAudioData message now
      (final (transcripts message s)) in
  (r, s2, trace (transcripts message s) ++ t2).
Proof.
  destruct (transcripts_result message s) as (tr & ci & co & l & E).
  unfold onmessage_arrive. unfold bind at 1. rewrite E.
  unfold final, trace; cbn [fst snd].
  unfold arrive_result.
  generalize (turn_update tr ci co s); intros s1.
  destruct (inlineAudio message) as [a|e]; [|reflexivity].
  cbv [bind await ret gets].
  destruct (audio_branch a (outputAudioContextRef s1)) as [[d ctx]|].
  - cbv [modify]. destruct (decode d) as [bytes|e]; reflexivity.
  - rewrite interruption_eq.
    destruct (flag interrupted message && held (outputAudioContextRef s1)).
    + rewrite flush_eq. cbn [app]. now rewrite !app_nil_r.
    + reflexivity.
Qed.

Lemma onmessage_eq (message : LiveServerMessage) (now : Q) (s : App) :
  onmessage decode decodeAudioData message now s =
  let '(r, s2, t2) :=
    arrive_result decode decodeAudioData message now
      (final (transcripts message s)) in
  match r with
  | Normal (Some k) =>
      let '(r3, s3, t3) := resume_result k s2 in
      (r3, s3, (trace (transcripts message s) ++ t2) ++ t3)
  | Normal None => (Normal tt, s2, trace (transcripts message s) ++ t2)
  | Throw e => (Throw e, s2, trace (transcripts message s) ++ t2)
  end.
Proof.
  unfold onmessage. unfold bind. rewrite onmessage_arrive_eq.
  destruct (arrive_result _ _ _ _ _) as [[[[k|]|e] s2] t2].
  - rewrite onmessage_resume_eq. reflexivity.
  - cbn [ret]. now rewrite app_nil_r.
  - reflexivity.
Qed.

(** A message that carries one chunk which decodes: the cursor is raised to
    the clock, the source starts at the cursor, the cursor moves on by the
    duration. *)
Lemma onmessage_audio (s : App) (ctx : AudioContext) (d : string)
    (bytes : list Z) (buf : AudioBuffer) (now : Q) :
  outputAudioContextRef s = Some ctx ->
  truthy d = true ->
  decode d = Normal bytes ->
  decodeAudioData bytes ctx 24000%positive 1%nat = Normal buf ->
  onmessage decode decodeAudioData (audioMessage d) now s =
  (Normal tt,
   enqueued buf (with_nextStartTimeRef (Qmax (nextStartTimeRef s) now) s),
   [SourceConnect (mkSource (createdSources s) buf) ctx;
    SourceStart (mkSource (createdSources s) buf) (Qmax (nextStartTimeRef s) now)]).
Proof.
  intros Hctx Hd Hdec Hbuf.
  rewrite onmessage_eq.
  change (transcripts (audioMessage d) s) with (Normal tt, s, @nil Event).
  unfold final, trace; cbn [fst snd].
  unfold arrive_result.
  change (inlineAudio (audioMessage d)) with (Normal (Some d)).
  rewrite Hctx. unfold audio_branch. rewrite Hd, Hdec.
  unfold resume_result. cbn [awaited]. rewrite Hbuf.
  reflexivity.
Qed.

Lemma onmessage_interrupted (s : App) (now : Q) :
  held (outputAudioContextRef s) = true ->
  onmessage decode decodeAudioData interruptedMessage now s = flush s.
Proof.
  intros H. rewrite onmessage_eq, flush_eq.
  change (transcripts interruptedMessage s) with (Normal tt, s, @nil Event).
  unfold final, trace; cbn [fst snd].
  unfold arrive_result.
  change (inlineAudio interruptedMessage) with (@Normal (option string) None).
  cbn [audio_branch]. rewrite H. reflexivity.
Qed.

End Handler.


(* ================================================================== *)
(** * The invariant of the scheduler *)

Lemma scheduler_inv_ext (s s' : App) :
  outputAudioContextRef s' = outputAudioContextRef s ->
  playingSourcesRef s' = playingSourcesRef s ->
  nextStartTimeRef s' = nextStartTimeRef s ->
  scheduler_inv s -> scheduler_inv s'.
Proof. unfold scheduler_inv. intros -> -> ->. auto. Qed.

Lemma scheduler_inv_stopped (s : App) :
  scheduler_inv s -> scheduler_inv (stopped_state s).
Proof.
  unfold scheduler_inv, stopped_state, keep_if_closed; cbn.
  destruct (outputAudioContextRef s) as [c|].
  - intros H. rewrite H. auto.
  - intros [H _]. auto.
Qed.

Lemma scheduler_inv_flushed (s : App) :
  scheduler_inv s -> scheduler_inv (flushed s).
Proof.
  unfold scheduler_inv, flushed; cbn.
  destruct (outputAudioContextRef s); auto.
Qed.

Lemma scheduler_inv_acquire (env : Env) (s : App) :
  env_ok env -> scheduler_inv s -> scheduler_inv (final (acquire env s)).
Proof.
  intros Hok Hs. unfold acquire.
  pose proof (Hok 24000%positive) as Hout.
  destruct env as [key media ctor conn];
    cbn [API_KEY getUserMedia newAudioContext connect] in *.
  destruct (truthy (or_else key "")), media as [stream|e1],
    (ctor 16000%positive) as [ic|e2] eqn:E1,
    (ctor 24000%positive) as [oc|e3] eqn:E2;
    cbv [bind when negb throw emit await ret modify final fst snd];
    rewrite ?E1; cbv [bind when negb throw emit await ret modify final fst snd];
    rewrite ?E2;
    try (revert Hs; apply scheduler_inv_ext; reflexivity).
  unfold scheduler_inv; cbn. now apply Hout.
Qed.

Lemma scheduler_inv_start (env : Env) (s : App) :
  env_ok env -> scheduler_inv s ->
  scheduler_inv (final (startConversation env s)).
Proof.
  intros Hok Hs.
  destruct (ConversationStatus_eqb (status s) IDLE) eqn:E.
  - assert (Hidle : status s = IDLE) by (destruct (status s); auto; discriminate).
    rewrite (@startConversation_idle env s Hidle).
    assert (H1 : scheduler_inv
                   (with_transcript [] (with_error None (with_status PROCESSING s))))
      by (revert Hs; apply scheduler_inv_ext; reflexivity).
    pose proof (@scheduler_inv_acquire env _ Hok H1) as H2.
    unfold try_catch.
    destruct (acquire env _) as [[[a|e] s1] t1];
      unfold final in *; cbn [fst snd] in *; [exact H2|].
    rewrite startFailed_eq. cbn [fst snd].
    apply scheduler_inv_stopped.
    revert H2; apply scheduler_inv_ext; reflexivity.
  - rewrite start_unchanged; [exact Hs|].
    intros H. rewrite H in E. discriminate.
Qed.

Section Invariant.

Variable decode : string -> Completion (list Z).
Variable decodeAudioData :
  list Z -> AudioContext -> positive -> nat -> Completion AudioBuffer.

Lemma scheduler_inv_message (m : LiveServerMessage) (now : Q) (s : App) :
  scheduler_inv s ->
  scheduler_inv (final (onmessage decode decodeAudioData m now s)).
Proof.
  intros Hs. rewrite onmessage_eq.
  destruct (transcripts_result m s) as (tr & ci & co & l & E).
  rewrite E. unfold final, trace; cbn [fst snd].
  assert (H1 : scheduler_inv (turn_update tr ci co s))
    by (revert Hs; apply scheduler_inv_ext; reflexivity).
  revert H1. generalize (turn_update tr ci co s). intros s1 H1.
  unfold arrive_result.
  destruct (inlineAudio m) as [a|e]; [|exact H1].
  destruct (audio_branch a (outputAudioContextRef s1)) as [[d ctx]|] eqn:B.
  - assert (Hheld : exists c, outputAudioContextRef s1 = Some c).
    { unfold audio_branch in B. destruct a; [|discriminate].
      destruct (outputAudioContextRef s1) as [c|]; [now exists c | discriminate]. }
    destruct Hheld as [c Hc].
    assert (H2 : forall q b,
               scheduler_inv (enqueued b (with_nextStartTimeRef q s1))).
    { intros q b. unfold scheduler_inv in *; cbn. now rewrite Hc in *. }
    assert (H3 : forall q, scheduler_inv (with_nextStartTimeRef q s1)).
    { intros q. unfold scheduler_inv in *; cbn. now rewrite Hc in *. }
    destruct (decode d) as [bytes|e]; [|apply H3].
    unfold resume_result; cbn [awaited suspendedMessage].
    destruct (decodeAudioData bytes ctx 24000%positive 1%nat) as [buf|e];
      [|apply H3].
    destruct (flag interrupted m && held _); cbn [fst snd].
    + apply scheduler_inv_flushed, H2.
    + apply H2.
  - destruct (flag interrupted m && held (outputAudioContextRef s1));
      cbn [fst snd]; [now apply scheduler_inv_flushed | exact H1].
Qed.

(** Every reachable state satisfies the invariant of the scheduler. *)
Lemma reachable_scheduler_inv (s : App) :
  reachable decode decodeAudioData s -> scheduler_inv s.
Proof.
  induction 1 as [|env s Hok _ IH|s _ IH|p s _ IH|m now s _ IH|msg s _ IH|x s _ IH].
  - split; reflexivity.
  - now apply scheduler_inv_start.
  - rewrite stopConversation_eq. now apply scheduler_inv_stopped.
  - unfold onopen, bind, gets.
    destruct (inputAudioContextRef s); [|exact IH].
    revert IH; apply scheduler_inv_ext; reflexivity.
  - now apply scheduler_inv_message.
  - rewrite onerror_eq. unfold final; cbn [fst snd].
    apply scheduler_inv_stopped.
    revert IH; apply scheduler_inv_ext; reflexivity.
  - unfold scheduler_inv in *. unfold onended, modify, final; cbn.
    destruct (outputAudioContextRef s); [exact IH|].
    destruct IH as [-> ->]. split; reflexivity.
Qed.

End Invariant.

Lemma activeApp_reachable
    (decode : string -> Completion (list Z))
    (decodeAudioData :
       list Z -> AudioContext -> positive -> nat -> Completion AudioBuffer) :
  reachable decode decodeAudioData activeApp.
Proof.
  change activeApp
    with (final (onopen (mkProcessor 3)
                   (final (startConversation goodEnv initialApp)))).
  apply reach_open, reach_start; [|apply reach_mount].
  intros rate c H. cbn in H. now inversion H.
Qed.

Lemma playingApp_reachable :
  reachable codec_decode codec_decodeAudioData playingApp.
Proof.
  unfold playingApp. do 2 apply reach_message. apply activeApp_reachable.
Qed.

(* ================================================================== *)
(** * A chunk that does not decode *)

(** C2, as amended.  When the chunk of an inbound message does not decode
    ([decode] throws, or the promise of [decodeAudioData] is rejected), the
    call of [onmessage] ends with that error and nothing catches it: no
    teardown runs and nothing is released, stopped or started.  The
    transcription fragment and the turn completion of the message have taken
    effect (lines 127-148) and the cursor has been raised to
    [max(nextStartTime, currentTime)]; status, error message, every
    resource reference and the active set are as before.  The
    interruption block of the same call is not reached.  A later message
    with a chunk that decodes is scheduled at the cursor as usual. *)
Theorem decode_failure_is_local
    (decode : string -> Completion (list Z))
    (decodeAudioData :
       list Z -> AudioContext -> positive -> nat -> Completion AudioBuffer)
    (message : LiveServerMessage) (now now2 : Q) (s : App) (d d2 : string)
    (ctx : AudioContext) (e : JsError) (bytes2 : list Z) (buf2 : AudioBuffer) :
  inlineAudio message = Normal (Some d) ->
  truthy d = true ->
  outputAudioContextRef s = Some ctx ->
  (decode d = Throw e \/
   exists bytes, decode d = Normal bytes /\
                 decodeAudioData bytes ctx 24000%positive 1%nat = Throw e) ->
  truthy d2 = true ->
  decode d2 = Normal bytes2 ->
  decodeAudioData bytes2 ctx 24000%positive 1%nat = Normal buf2 ->
  completion (onmessage decode decodeAudioData message now s) = Throw e /\
  final (onmessage decode decodeAudioData message now s) =
    with_nextStartTimeRef (Qmax (nextStartTimeRef s) now)
      (final (transcripts message s)) /\
  trace (onmessage decode decodeAudioData message now s) =
    trace (transcripts message s) /\
  (filter is_release (trace (onmessage decode decodeAudioData message now s)) = [] /\
   stopped (trace (onmessage decode decodeAudioData message now s)) = [] /\
   schedule (trace (onmessage decode decodeAudioData message now s)) = []) /\
  (status (final (onmessage decode decodeAudioData message now s)) = status s /\
   error (final (onmessage decode decodeAudioData message now s)) = error s /\
   sessionPromiseRef (final (onmessage decode decodeAudioData message now s)) =
     sessionPromiseRef s /\
   inputAudioContextRef (final (onmessage decode decodeAudioData message now s)) =
     inputAudioContextRef s /\
   outputAudioContextRef (final (onmessage decode decodeAudioData message now s)) =
     outputAudioContextRef s /\
   microphoneStreamRef (final (onmessage decode decodeAudioData message now s)) =
     microphoneStreamRef s /\
   scriptProcessorRef (final (onmessage decode decodeAudioData message now s)) =
     scriptProcessorRef s /\
   playingSourcesRef (final (onmessage decode decodeAudioData message now s)) =
     playingSourcesRef s /\
   createdSources (final (onmessage decode decodeAudioData message now s)) =
     createdSources s) /\
  schedule
    (trace (onmessage decode decodeAudioData (audioMessage d2) now2
              (final (onmessage decode decodeAudioData message now s)))) =
  [(Qmax (Qmax (nextStartTimeRef s) now) now2, duration buf2)].
Proof.
  intros Haudio Hd Hctx Hfail Hd2 Hdec2 Hbuf2.
  destruct (transcripts_result message s) as (tr & ci & co & l & E).
  assert (R : onmessage decode decodeAudioData message now s =
              (Throw e,
               with_nextStartTimeRef (Qmax (nextStartTimeRef s) now)
                 (turn_update tr ci co s),
               map AppendTranscript l)).
  { rewrite onmessage_eq, E. unfold final, trace; cbn [fst snd].
    unfold arrive_result. rewrite Haudio.
    change (outputAudioContextRef (turn_update tr ci co s))
      with (outputAudioContextRef s).
    rewrite Hctx. unfold audio_branch. rewrite Hd.
    change (nextStartTimeRef (turn_update tr ci co s)) with (nextStartTimeRef s).
    destruct Hfail as [F | (bytes & F1 & F2)].
    - rewrite F. now rewrite app_nil_r.
    - rewrite F1. unfold resume_result. cbn [awaited]. rewrite F2.
      now rewrite !app_nil_r. }
  rewrite R, E. unfold completion, final, trace; cbn [fst snd].
  destruct (appends_silent l) as (A1 & A2 & A3).
  repeat match goal with |- _ /\ _ => split end; try reflexivity; try assumption.
  rewrite (@onmessage_audio decode decodeAudioData _ ctx d2 bytes2 buf2 now2);
    try assumption; reflexivity.
Qed.

Lemma decode_failure_is_local_witness :
  completion (onmessage codec_decode codec_decodeAudioData
                (interruptedAudioMessage "!") 4 playingApp) =
    Throw MalformedPayload /\
  playingSourcesRef
    (final (onmessage codec_decode codec_decodeAudioData
              (interruptedAudioMessage "!") 4 playingApp)) =
    playingSourcesRef playingApp /\
  schedule
    (trace (onmessage codec_decode codec_decodeAudioData (audioMessage "AAAAAA==") 5
              (final (onmessage codec_decode codec_decodeAudioData
                        (interruptedAudioMessage "!") 4 playingApp)))) =
  [(Qmax (Qmax (nextStartTimeRef playingApp) 4) 5, duration twoFrames)].
Proof.
  pose proof (@decode_failure_is_local codec_decode codec_decodeAudioData
                (interruptedAudioMessage "!") 4 5 playingApp "!" "AAAAAA=="
                (mkContext 2 running) MalformedPayload [0; 0; 0; 0]%Z twoFrames
                eq_refl eq_refl eq_refl (or_introl eq_refl)
                eq_refl eq_refl eq_refl) as W.
  split; [exact (proj1 W)|].
  split; [|exact (proj2 (proj2 (proj2 (proj2 (proj2 W)))))].
  apply (proj2 (proj2 (proj2 (proj2 W)))).
Defined.

(** C2, as stated, fails.  Two sources are in the set and the cursor is
    past 0; a message arrives at clock 0 that signals an interruption and
    carries the chunk ["!"], which is not base64.  After the call both
    sources are still in the set and the cursor is where it was; had only
    the chunk been dropped, the interruption would have emptied the set and
    reset the cursor. *)
Lemma failed_chunk_skips_interruption :
  inlineAudio (interruptedAudioMessage "!") = Normal (Some "!"%string) /\
  codec_decode "!" = Throw MalformedPayload /\
  playingSourcesRef playingApp = [mkSource 0 twoFrames; mkSource 1 twoFrames] /\
  ~ (nextStartTimeRef playingApp == 0) /\
  playingSourcesRef
    (final (onmessage codec_decode codec_decodeAudioData
              (interruptedAudioMessage "!") 0 playingApp)) =
    [mkSource 0 twoFrames; mkSource 1 twoFrames] /\
  nextStartTimeRef
    (final (onmessage codec_decode codec_decodeAudioData
              (interruptedAudioMessage "!") 0 playingApp)) =
    nextStartTimeRef playingApp /\
  playingSourcesRef
    (final (onmessage codec_decode codec_decodeAudioData
              (without_audio (interruptedAudioMessage "!")) 0 playingApp)) = [] /\
  nextStartTimeRef
    (final (onmessage codec_decode codec_decodeAudioData
              (without_audio (interruptedAudioMessage "!")) 0 playingApp)) = 0 /\
  final (onmessage codec_decode codec_decodeAudioData
           (interruptedAudioMessage "!") 0 playingApp) <>
  final (onmessage codec_decode codec_decodeAudioData
           (without_audio (interruptedAudioMessage "!")) 0 playingApp).
Proof.
  repeat match goal with |- _ /\ _ => split end; try (vm_compute; reflexivity).
  - vm_compute. discriminate.
  - vm_compute. discriminate.
Qed.

(* ================================================================== *)
(** * The playback schedule *)

Lemma duration_nonneg (b : AudioBuffer) : 0 <= duration b.
Proof. unfold duration, Qle; simpl. lia. Qed.

Lemma consecutive_snoc {A} (R : A -> A -> Prop) (l : list A) (x : A) :
  consecutive R l -> Forall (fun p => R p x) l -> consecutive R (l ++ [x]).
Proof.
  induction l as [|p l IH]; intros Hc Hall.
  - cbn. auto.
  - inversion_clear Hall as [|? ? Hp Hl].
    destruct Hc as [Hhead Htail].
    cbn [app consecutive]. split.
    + destruct l as [|q l']; [exact Hp | exact Hhead].
    + now apply IH.
Qed.

Lemma Forall_remove_nth {A} (P : A -> Prop) (i : nat) (l : list A) :
  Forall P l -> Forall P (remove_nth i l).
Proof.
  revert i. induction l as [|x l IH]; intros i H; [destruct i; exact H|].
  inversion_clear H as [|? ? Hx Hl].
  destruct i as [|i]; cbn; [exact Hl|].
  constructor; [exact Hx | now apply IH].
Qed.

Section Scheduler.

Variable decode : string -> Completion (list Z).
Variable decodeAudioData :
  list Z -> AudioContext -> positive -> nat -> Completion AudioBuffer.

(** An arrival without interruption signal starts nothing and can only
    raise the cursor. *)
Lemma arrive_quiet (message : LiveServerMessage) (now : Q) (s : App) :
  flag interrupted message = false ->
  schedule (trace (onmessage_arrive decode decodeAudioData message now s)) = [] /\
  nextStartTimeRef s <=
    nextStartTimeRef (final (onmessage_arrive decode decodeAudioData message now s)) /\
  forall k,
    completion (onmessage_arrive decode decodeAudioData message now s) =
      Normal (Some k) ->
    suspendedMessage k = message.
Proof.
  intros Hflag.
  rewrite onmessage_arrive_eq.
  destruct (transcripts_result message s) as (tr & ci & co & l & E).
  rewrite E. unfold final, trace, completion; cbn [fst snd].
  destruct (appends_silent l) as (A1 & _ & _).
  unfold arrive_result. rewrite Hflag. cbn [andb].
  change (nextStartTimeRef (turn_update tr ci co s)) with (nextStartTimeRef s).
  destruct (inlineAudio message) as [a|e].
  - destruct (audio_branch a _) as [[d ctx]|].
    + destruct (decode d) as [bytes|e]; cbn [fst snd];
        rewrite schedule_app, A1;
        (split; [reflexivity|]); (split; [apply Q.le_max_l|]);
        intros k Hk; [now inversion Hk | discriminate].
    + cbn [fst snd]. rewrite schedule_app, A1.
      split; [reflexivity|]. split; [apply Qle_refl|]. intros k Hk; discriminate.
  - cbn [fst snd]. rewrite schedule_app, A1.
    split; [reflexivity|]. split; [apply Qle_refl|]. intros k Hk; discriminate.
Qed.

Lemma sys_step_between_resets (y : Sys) (st : Step) :
  no_interruption st -> between_resets y ->
  between_resets (sys_step decode decodeAudioData y st).
Proof.
  intros Hst (C1 & C2 & Hend & Hpend).
  destruct st as [message now | i]; cbn [no_interruption] in Hst; unfold sys_step.
  - destruct (arrive_quiet message now (sysApp y) Hst) as (Q1 & Q2 & Q3).
    destruct (onmessage_arrive decode decodeAudioData message now (sysApp y))
      as [[r s'] t].
    unfold final, trace, completion in *; cbn [fst snd] in *.
    unfold between_resets; cbn [sysApp sysSuspended sysTrace].
    rewrite schedule_app, Q1, app_nil_r.
    repeat match goal with |- _ /\ _ => split end; try assumption.
    + eapply Forall_impl; [|exact Hend].
      intros p [H1 H2]. split; eapply Qle_trans; eassumption.
    + apply Forall_app. split; [exact Hpend|].
      destruct r as [[k|]|e]; constructor; [|constructor].
      now rewrite (Q3 k eq_refl).
  - destruct (nth_error (sysSuspended y) i) as [k|] eqn:Ek;
      [|repeat split; assumption].
    assert (Hk : flag interrupted (suspendedMessage k) = false).
    { rewrite Forall_forall in Hpend. apply Hpend.
      eapply nth_error_In; eassumption. }
    rewrite onmessage_resume_eq. unfold resume_result.
    rewrite Hk. cbn [andb].
    destruct (awaited k) as [buf|e];
      unfold between_resets; cbn [sysApp sysSuspended sysTrace].
    + rewrite schedule_app. cbn [schedule buffer].
      change (nextStartTimeRef (enqueued buf (sysApp y)))
        with (nextStartTimeRef (sysApp y) + duration buf).
      pose proof (duration_nonneg buf) as Hd.
      repeat match goal with |- _ /\ _ => split end.
      * apply consecutive_snoc; [exact C1|].
        eapply Forall_impl; [|exact Hend]. intros p [H1 _]. exact H1.
      * apply consecutive_snoc; [exact C2|].
        eapply Forall_impl; [|exact Hend]. intros p [_ H2]. exact H2.
      * apply Forall_app. split.
        -- eapply Forall_impl; [|exact Hend].
           intros p [H1 H2]. split; lra.
        -- constructor; [|constructor]. cbn [fst snd]. split; lra.
      * now apply Forall_remove_nth.
    + rewrite app_nil_r.
      repeat match goal with |- _ /\ _ => split end; try assumption.
      now apply Forall_remove_nth.
Qed.

Lemma sys_run_between_resets (steps : list Step) :
  forall y, Forall no_interruption steps -> between_resets y ->
            between_resets (sys_run decode decodeAudioData steps y).
Proof.
  induction steps as [|st steps IH]; intros y Hsteps Hy; [exact Hy|].
  inversion_clear Hsteps as [|? ? Hst Hrest].
  cbn [sys_run fold_left]. apply IH; [exact Hrest|].
  now apply sys_step_between_resets.
Qed.

End Scheduler.

(** C1, as amended.  Between resets, however arrivals of messages and
    completions of decodes interleave, the chunks are started with
    non-decreasing start times and never overlap: each start time is at
    least the previous start time plus the previous duration.  At arrival
    the cursor is only raised to [max(nextStartTime, currentTime)] and
    nothing is started; the source is started at the cursor, and the cursor
    advanced by the duration, when the decode has completed.  When each
    message is handled to its end before the next arrives, a chunk starts at
    the maximum of the previous start plus duration and the clock read at
    its arrival: chunks play in arrival order, and without gap as long as
    the clock has not passed the cursor. *)
Theorem schedule_never_overlaps
    (decode : string -> Completion (list Z))
    (decodeAudioData :
       list Z -> AudioContext -> positive -> nat -> Completion AudioBuffer)
    (steps : list Step) (s : App) (ctx : AudioContext) (d1 d2 : string)
    (now1 now2 : Q) (bytes1 bytes2 : list Z) (buf1 buf2 : AudioBuffer) :
  Forall no_interruption steps ->
  outputAudioContextRef s = Some ctx ->
  truthy d1 = true ->
  decode d1 = Normal bytes1 ->
  decodeAudioData bytes1 ctx 24000%positive 1%nat = Normal buf1 ->
  truthy d2 = true ->
  decode d2 = Normal bytes2 ->
  decodeAudioData bytes2 ctx 24000%positive 1%nat = Normal buf2 ->
  (consecutive (fun p q : Q * Q => fst p <= fst q)
     (schedule (sysTrace (sys_run decode decodeAudioData steps (mkSys s [] [])))) /\
   consecutive (fun p q : Q * Q => fst p + snd p <= fst q)
     (schedule (sysTrace (sys_run decode decodeAudioData steps (mkSys s [] []))))) /\
  onmessage_arrive decode decodeAudioData (audioMessage d1) now1 s =
    (Normal (Some (mkSuspended (Normal buf1) ctx (audioMessage d1))),
     with_nextStartTimeRef (Qmax (nextStartTimeRef s) now1) s, []) /\
  (onmessage_resume (mkSuspended (Normal buf1) ctx (audioMessage d1)) s =
     (Normal tt, enqueued buf1 s,
      [SourceConnect (mkSource (createdSources s) buf1) ctx;
       SourceStart (mkSource (createdSources s) buf1) (nextStartTimeRef s)]) /\
   nextStartTimeRef (enqueued buf1 s) = nextStartTimeRef s + duration buf1) /\
  schedule
    (trace (onmessages decode decodeAudioData
              [(audioMessage d1, now1); (audioMessage d2, now2)] s)) =
    [(Qmax (nextStartTimeRef s) now1, duration buf1);
     (Qmax (Qmax (nextStartTimeRef s) now1 + duration buf1) now2, duration buf2)] /\
  (now2 <= Qmax (nextStartTimeRef s) now1 + duration buf1 ->
   Qmax (Qmax (nextStartTimeRef s) now1 + duration buf1) now2 ==
   Qmax (nextStartTimeRef s) now1 + duration buf1).
Proof.
  intros Hsteps Hctx Hd1 Hdec1 Hbuf1 Hd2 Hdec2 Hbuf2.
  split; [|split; [|split; [|split]]].
  - assert (B : between_resets (mkSys s [] [])).
    { repeat split; constructor. }
    destruct (sys_run_between_resets decode decodeAudioData Hsteps B)
      as (C1 & C2 & _).
    split; assumption.
  - rewrite onmessage_arrive_eq.
    change (transcripts (audioMessage d1) s) with (Normal tt, s, @nil Event).
    unfold final, trace; cbn [fst snd]. unfold arrive_result.
    change (inlineAudio (audioMessage d1)) with (Normal (Some d1)).
    rewrite Hctx. unfold audio_branch. rewrite Hd1, Hdec1, Hbuf1. reflexivity.
  - split; [|reflexivity].
    rewrite onmessage_resume_eq. reflexivity.
  - unfold onmessages.
    rewrite (@onmessage_audio decode decodeAudioData s ctx d1 bytes1 buf1 now1);
      try assumption.
    rewrite (@onmessage_audio decode decodeAudioData _ ctx d2 bytes2 buf2 now2);
      try assumption.
    reflexivity.
  - intros H. now apply Q.max_l.
Qed.

Lemma schedule_never_overlaps_witness :
  (consecutive (fun p q : Q * Q => fst p <= fst q)
     (schedule (sysTrace (sys_run codec_decode codec_decodeAudioData
        [Arrive (audioMessage "AAAAAA==") 0; Arrive (audioMessage "AAA=") 0;
         Settle 1; Settle 0]
        (mkSys activeApp [] [])))) /\
   consecutive (fun p q : Q * Q => fst p + snd p <= fst q)
     (schedule (sysTrace (sys_run codec_decode codec_decodeAudioData
        [Arrive (audioMessage "AAAAAA==") 0; Arrive (audioMessage "AAA=") 0;
         Settle 1; Settle 0]
        (mkSys activeApp [] []))))) /\
  schedule
    (trace (onmessages codec_decode codec_decodeAudioData
              [(audioMessage "AAAAAA==", 0); (audioMessage "AAA=", 5)] activeApp)) =
    [(Qmax (nextStartTimeRef activeApp) 0, duration twoFrames);
     (Qmax (Qmax (nextStartTimeRef activeApp) 0 + duration twoFrames) 5,
      duration oneFrame)].
Proof.
  destruct (@schedule_never_overlaps codec_decode codec_decodeAudioData
              [Arrive (audioMessage "AAAAAA==") 0; Arrive (audioMessage "AAA=") 0;
               Settle 1; Settle 0]
              activeApp (mkContext 2 running) "AAAAAA==" "AAA=" 0 5
              [0; 0; 0; 0]%Z [0; 0]%Z twoFrames oneFrame)
    as (W1 & _ & _ & W4 & _);
    [repeat constructor | reflexivity | reflexivity | reflexivity | reflexivity
    | reflexivity | reflexivity | reflexivity | ].
  split; [exact W1 | exact W4].
Defined.

(** C1, as stated, fails.  Two chunks of two frames each arrive in a
    session whose cursor is at 0, with no interruption in between: the
    first while the output clock reads 0, the second while it reads 5.  The
    first starts at 0 and lasts 2/24000; the second starts at 5, not at
    0 + 2/24000.  And when two chunks arrive in the order A (two frames),
    B (one frame) and the decode of B completes first, B is started first
    and A after it. *)
Lemma clock_ahead_leaves_gap :
  flag interrupted (audioMessage "AAAAAA==") = false /\
  schedule
    (trace (onmessages codec_decode codec_decodeAudioData
              [(audioMessage "AAAAAA==", 0); (audioMessage "AAAAAA==", 5)]
              activeApp)) =
    [(0, 2 # 24000); (5, 2 # 24000)] /\
  ~ (5 == 0 + (2 # 24000)) /\
  schedule
    (sysTrace (sys_run codec_decode codec_decodeAudioData
       [Arrive (audioMessage "AAAAAA==") 0; Arrive (audioMessage "AAA=") 0;
        Settle 1; Settle 0]
       (mkSys activeApp [] []))) =
    [(0, duration oneFrame); (0 + duration oneFrame, duration twoFrames)].
Proof.
  split; [reflexivity|]. split; [vm_compute; reflexivity|].
  split; [intros H; vm_compute in H; discriminate H|].
  vm_compute. reflexivity.
Qed.

(* ================================================================== *)
(** * Starting a session *)

Lemma acquire_eq (env : Env) (s : App) : acquire env s = acquire_result env s.
Proof.
  unfold acquire, acquire_result.
  destruct env as [key media ctor conn];
    cbn [API_KEY getUserMedia newAudioContext connect].
  destruct (truthy (or_else key "")), media as [stream|e1],
    (ctor 16000%positive) as [ic|e2] eqn:E1,
    (ctor 24000%positive) as [oc|e3] eqn:E2;
    cbv [bind when negb throw emit await ret modify];
    rewrite ?E1; cbv [bind when negb throw emit await ret modify];
    rewrite ?E2; reflexivity.
Qed.

Lemma start_idle_eq (env : Env) (s : App) :
  status s = IDLE ->
  startConversation env s =
  match acquire_result env (starting s) with
  | (Normal a, s1, t1) =>
      (Normal a, s1, SetStatus PROCESSING :: SetError None :: SetTranscript [] :: t1)
  | (Throw e, s1, t1) =>
      (Normal tt,
       stopped_state
         (with_error (Some (or_else (message e) "An unexpected error occurred.")) s1),
       SetStatus PROCESSING :: SetError None :: SetTranscript [] :: t1 ++
       ConsoleError "Failed to start conversation:"
       :: SetError (Some (or_else (message e) "An unexpected error occurred."))
       :: stop_trace
            (with_error (Some (or_else (message e) "An unexpected error occurred."))
               s1))
  end.
Proof.
  intros H. rewrite (@startConversation_idle env s H).
  unfold try_catch. rewrite acquire_eq. fold (starting s).
  destruct (acquire_result env (starting s)) as [[[a|e] s1] t1]; [reflexivity|].
  rewrite startFailed_eq. reflexivity.
Qed.

Lemma stop_trace_acquires_nothing (s : App) :
  filter is_acquisition (stop_trace s) = [].
Proof.
  unfold stop_trace. rewrite !filter_app.
  assert (T : forall l, filter is_acquisition (map TrackStop l) = [])
    by (induction l; [reflexivity | assumption]).
  assert (S : forall l, filter is_acquisition (map SourceStop l) = [])
    by (induction l; [reflexivity | assumption]).
  destruct (sessionPromiseRef s) as [[?|?]|], (microphoneStreamRef s),
    (scriptProcessorRef s), (inputAudioContextRef s) as [ic|],
    (outputAudioContextRef s) as [oc|];
    try destruct (is_closed ic); try destruct (is_closed oc);
    rewrite ?filter_app, ?T, ?S; reflexivity.
Qed.

Lemma start_success_eq (env : Env) (s : App) (stream : MediaStream)
    (ic oc : AudioContext) :
  status s = IDLE ->
  truthy (or_else (API_KEY env) "") = true ->
  getUserMedia env = Normal stream ->
  newAudioContext env 16000 = Normal ic ->
  newAudioContext env 24000 = Normal oc ->
  startConversation env s =
  (Normal tt,
   mkApp PROCESSING [] None (Some (connect env)) (Some ic) (Some oc)
     (Some stream) (scriptProcessorRef s) (currentInputTranscriptionRef s)
     (currentOutputTranscriptionRef s) (nextStartTimeRef s)
     (playingSourcesRef s) (createdSources s),
   [SetStatus PROCESSING; SetError None; SetTranscript []; GetUserMedia;
    NewAudioContext 16000; NewAudioContext 24000; LiveConnect]).
Proof.
  intros Hs Hk Hm Hi Ho.
  rewrite (@start_idle_eq env s Hs). unfold acquire_result.
  rewrite Hk, Hm, Hi, Ho. reflexivity.
Qed.

(** X1.  A start from [IDLE] in which the key is set, the microphone is
    granted and both contexts are constructed makes its calls in the order
    setters, [getUserMedia], input context at 16000 Hz, output context at
    24000 Hz, [connect]; it stores the promise of [connect] as it is,
    fulfilled or rejected, leaves the status at [PROCESSING], and touches
    neither the buffers nor the cursor nor the set. *)
Theorem start_acquires_in_order (env : Env) (s : App) (stream : MediaStream)
    (ic oc : AudioContext) :
  status s = IDLE ->
  truthy (or_else (API_KEY env) "") = true ->
  getUserMedia env = Normal stream ->
  newAudioContext env 16000 = Normal ic ->
  newAudioContext env 24000 = Normal oc ->
  startConversation env s =
  (Normal tt,
   mkApp PROCESSING [] None (Some (connect env)) (Some ic) (Some oc)
     (Some stream) (scriptProcessorRef s) (currentInputTranscriptionRef s)
     (currentOutputTranscriptionRef s) (nextStartTimeRef s)
     (playingSourcesRef s) (createdSources s),
   [SetStatus PROCESSING; SetError None; SetTranscript []; GetUserMedia;
    NewAudioContext 16000; NewAudioContext 24000; LiveConnect]).
Proof.
  intros Hs Hk Hm Hi Ho.
  rewrite (@start_idle_eq env s Hs). unfold acquire_result.
  rewrite Hk, Hm, Hi, Ho. reflexivity.
Qed.

Lemma start_acquires_in_order_witness :
  startConversation goodEnv initialApp =
  (Normal tt,
   mkApp PROCESSING [] None (Some (connect goodEnv))
     (Some (mkContext 1 running)) (Some (mkContext 2 running))
     (Some (mkStream [7%nat])) (scriptProcessorRef initialApp)
     (currentInputTranscriptionRef initialApp)
     (currentOutputTranscriptionRef initialApp) (nextStartTimeRef initialApp)
     (playingSourcesRef initialApp) (createdSources initialApp),
   [SetStatus PROCESSING; SetError None; SetTranscript []; GetUserMedia;
    NewAudioContext 16000; NewAudioContext 24000; LiveConnect]).
Proof.
  apply (@start_acquires_in_order goodEnv initialApp (mkStream [7%nat])
           (mkContext 1 running) (mkContext 2 running)); reflexivity.
Defined.

(** X2.  A start from [IDLE] without API key (undefined or empty) attempts
    no acquisition at all: no [getUserMedia], no context, no connection.
    It sets the error message to the text of the thrown error and ends in
    [IDLE]. *)
Theorem start_without_key (env : Env) (s : App) :
  status s = IDLE ->
  truthy (or_else (API_KEY env) "") = false ->
  completion (startConversation env s) = Normal tt /\
  filter is_acquisition (trace (startConversation env s)) = [] /\
  error (final (startConversation env s)) =
    Some "API_KEY environment variable not set."%string /\
  status (final (startConversation env s)) = IDLE.
Proof.
  intros Hs Hk.
  rewrite (@start_idle_eq env s Hs). unfold acquire_result. rewrite Hk.
  unfold completion, trace, final; cbn [fst snd app filter is_acquisition].
  rewrite stop_trace_acquires_nothing. repeat split.
Qed.

Lemma start_without_key_witness :
  completion (startConversation (mkEnv None (getUserMedia goodEnv)
                                   (newAudioContext goodEnv) (connect goodEnv))
                initialApp) = Normal tt /\
  filter is_acquisition
    (trace (startConversation (mkEnv None (getUserMedia goodEnv)
                                 (newAudioContext goodEnv) (connect goodEnv))
              initialApp)) = [] /\
  error (final (startConversation (mkEnv None (getUserMedia goodEnv)
                                     (newAudioContext goodEnv) (connect goodEnv))
                  initialApp)) =
    Some "API_KEY environment variable not set."%string /\
  status (final (startConversation (mkEnv None (getUserMedia goodEnv)
                                      (newAudioContext goodEnv) (connect goodEnv))
                   initialApp)) = IDLE.
Proof.
  apply (@start_without_key (mkEnv None (getUserMedia goodEnv)
                               (newAudioContext goodEnv) (connect goodEnv))
           initialApp); reflexivity.
Defined.

(** X3.  When the microphone is granted and the input context constructed
    but the constructor of the output context throws, the same call releases
    what it acquired: its release calls are those due for the state with
    the new stream and the new input context, in the order of the teardown;
    it ends in [IDLE] with no resource held and the error message set from
    the thrown error. *)
Theorem failed_start_releases (env : Env) (s : App) (stream : MediaStream)
    (ic : AudioContext) (err : JsError) :
  status s = IDLE ->
  truthy (or_else (API_KEY env) "") = true ->
  getUserMedia env = Normal stream ->
  newAudioContext env 16000 = Normal ic ->
  newAudioContext env 24000 = Throw err ->
  filter is_release (trace (startConversation env s)) =
    release_order (with_inputAudioContextRef (Some ic)
                     (with_microphoneStreamRef (Some stream) s)) /\
  released (final (startConversation env s)) /\
  status (final (startConversation env s)) = IDLE /\
  error (final (startConversation env s)) =
    Some (or_else (message err) "An unexpected error occurred.") /\
  filter is_acquisition (trace (startConversation env s)) =
    [GetUserMedia; NewAudioContext 16000; NewAudioContext 24000].
Proof.
  intros Hs Hk Hm Hi Ho.
  rewrite (@start_idle_eq env s Hs). unfold acquire_result.
  rewrite Hk, Hm, Hi, Ho.
  unfold completion, trace, final; cbn [fst snd app filter is_release is_acquisition].
  rewrite stop_trace_releases, stop_trace_acquires_nothing.
  repeat match goal with |- _ /\ _ => split end; try reflexivity.
  apply stopped_state_released.
Qed.

Lemma failed_start_releases_witness :
  filter is_release
    (trace (startConversation
              (mkEnv (Some "key"%string) (Normal (mkStream [7%nat; 8%nat]))
                 (fun rate => if Pos.eqb rate 16000
                              then Normal (mkContext 1 running)
                              else Throw (mkError None))
                 (Normal (mkSession 0)))
              initialApp)) =
  [TrackStop 7; TrackStop 8; ContextClose (mkContext 1 running)].
Proof.
  apply (@failed_start_releases
           (mkEnv (Some "key"%string) (Normal (mkStream [7%nat; 8%nat]))
              (fun rate => if Pos.eqb rate 16000
                           then Normal (mkContext 1 running)
                           else Throw (mkError None))
              (Normal (mkSession 0)))
           initialApp (mkStream [7%nat; 8%nat]) (mkContext 1 running)
           (mkError None)); reflexivity.
Defined.

Lemma bind_gets {A B} (f : App -> A) (k : A -> M B) (s : App) :
  bind (gets f) k s = k (f s) s.
Proof.
  unfold bind, gets. destruct (k (f s) s) as [[r s2] t2]. reflexivity.
Qed.

Lemma handleButtonClick_eq (env : Env) (s : App) :
  handleButtonClick env s =
  if ConversationStatus_eqb (status s) IDLE then startConversation env s
  else stopConversation s.
Proof.
  unfold handleButtonClick. rewrite bind_gets.
  destruct (ConversationStatus_eqb (status s) IDLE); reflexivity.
Qed.

Lemma onopen_eq (p : ScriptProcessorNode) (s : App) (ctx : AudioContext) :
  inputAudioContextRef s = Some ctx ->
  onopen p s =
  (Normal tt, with_status LISTENING (with_scriptProcessorRef (Some p) s),
   [CreateMediaStreamSource ctx; CreateScriptProcessor ctx p; SetStatus LISTENING]).
Proof.
  intros H. unfold onopen. rewrite bind_gets, H. reflexivity.
Qed.

(** X4.  An [onopen] that arrives after a teardown does nothing: no capture
    node is created and the status stays [IDLE].  (The input context held
    before the teardown, if any, was not closed.) *)
Theorem open_after_stop (p : ScriptProcessorNode) (s : App) :
  (forall c, inputAudioContextRef s = Some c -> is_closed c = false) ->
  onopen p (final (stopConversation s)) =
  (Normal tt, final (stopConversation s), []).
Proof.
  intros H. rewrite stopConversation_eq. unfold final; cbn [fst snd].
  unfold onopen, bind, gets.
  assert (E : inputAudioContextRef (stopped_state s) = None).
  { unfold stopped_state, keep_if_closed; cbn.
    destruct (inputAudioContextRef s) as [c|]; [|reflexivity].
    now rewrite (H c eq_refl). }
  rewrite E. reflexivity.
Qed.

Lemma open_after_stop_witness :
  onopen (mkProcessor 9) (final (stopConversation activeApp)) =
  (Normal tt, final (stopConversation activeApp), []).
Proof.
  apply (@open_after_stop (mkProcessor 9) activeApp).
  intros c H. inversion H. reflexivity.
Defined.

(** X5.  One cycle of the button: from any state with status [IDLE], a
    click that starts successfully, the opening of the transport and a
    second click lead to status [LISTENING] in between, then release the
    session, the tracks, the capture node, the input context and the output
    context, in this order, and end in the initial state of the component
    (but for the count of sources made so far). *)
Theorem click_open_click (env : Env) (s : App) (p : ScriptProcessorNode)
    (stream : MediaStream) (ic oc : AudioContext) (session : LiveSession) :
  status s = IDLE ->
  truthy (or_else (API_KEY env) "") = true ->
  getUserMedia env = Normal stream ->
  newAudioContext env 16000 = Normal ic ->
  newAudioContext env 24000 = Normal oc ->
  is_closed ic = false ->
  is_closed oc = false ->
  connect env = Normal session ->
  status (final (onopen p (final (handleButtonClick env s)))) = LISTENING /\
  filter is_release
    (trace (handleButtonClick env
              (final (onopen p (final (handleButtonClick env s)))))) =
    SessionClose session :: map TrackStop (getTracks stream) ++
    [ProcessorDisconnect p; ContextClose ic] ++
    map SourceStop (playingSourcesRef s) ++ [ContextClose oc] /\
  final (handleButtonClick env
           (final (onopen p (final (handleButtonClick env s))))) =
    with_createdSources (createdSources s) initialApp.
Proof.
  intros Hs Hk Hm Hi Ho Hic Hoc Hc.
  rewrite (handleButtonClick_eq env s), Hs. cbn [ConversationStatus_eqb].
  rewrite (@start_success_eq env s stream ic oc Hs Hk Hm Hi Ho).
  change (final (Normal tt, ?x, ?t)) with x.
  rewrite (@onopen_eq p _ ic) by reflexivity.
  change (final (Normal tt, ?x, ?t)) with x.
  split; [reflexivity|].
  rewrite handleButtonClick_eq.
  cbn [status with_status ConversationStatus_eqb].
  rewrite stopConversation_eq. unfold trace, final; cbn [fst snd].
  rewrite stop_trace_releases.
  unfold release_order, stopped_state, keep_if_closed; cbn.
  rewrite Hc, Hic, Hoc. split; reflexivity.
Qed.

Lemma click_open_click_witness :
  final (handleButtonClick goodEnv
           (final (onopen (mkProcessor 3)
                     (final (handleButtonClick goodEnv initialApp))))) =
  with_createdSources (createdSources initialApp) initialApp.
Proof.
  apply (@click_open_click goodEnv initialApp (mkProcessor 3) (mkStream [7%nat])
           (mkContext 1 running) (mkContext 2 running) (mkSession 0));
    reflexivity.
Defined.

(* ================================================================== *)
(** * What an inbound message can do *)

Lemma message_event_appends (l : list TranscriptEntry) :
  Forall (fun e => message_event e = true) (map AppendTranscript l).
Proof. induction l; constructor; [reflexivity | assumption]. Qed.

Lemma message_event_stops (l : list AudioBufferSourceNode) :
  Forall (fun e => message_event e = true) (map SourceStop l).
Proof. induction l; constructor; [reflexivity | assumption]. Qed.

Section Shape.

Variable decode : string -> Completion (list Z).
Variable decodeAudioData :
  list Z -> AudioContext -> positive -> nat -> Completion AudioBuffer.

(** The states a call of [onmessage] can end in, and the calls it makes. *)
Lemma onmessage_shape (m : LiveServerMessage) (now : Q) (s : App) :
  exists tr ci co,
    (final (onmessage decode decodeAudioData m now s) = turn_update tr ci co s \/
     final (onmessage decode decodeAudioData m now s) =
       flushed (turn_update tr ci co s) \/
     (outputAudioContextRef s <> None /\
      exists q,
        final (onmessage decode decodeAudioData m now s) =
          with_nextStartTimeRef q (turn_update tr ci co s) \/
        exists buf,
          final (onmessage decode decodeAudioData m now s) =
            enqueued buf (with_nextStartTimeRef q (turn_update tr ci co s)) \/
          final (onmessage decode decodeAudioData m now s) =
            flushed (enqueued buf
                       (with_nextStartTimeRef q (turn_update tr ci co s))))) /\
    Forall (fun e => message_event e = true)
      (trace (onmessage decode decodeAudioData m now s)).
Proof.
  rewrite onmessage_eq.
  destruct (transcripts_result m s) as (tr & ci & co & l & E).
  exists tr, ci, co.
  rewrite E. unfold final, trace; cbn [fst snd].
  pose proof (message_event_appends l) as Hl.
  unfold arrive_result.
  change (outputAudioContextRef (turn_update tr ci co s))
    with (outputAudioContextRef s).
  destruct (inlineAudio m) as [a|e];
    [|cbn [fst snd]; rewrite app_nil_r; split; [now left | exact Hl]].
  destruct (audio_branch a (outputAudioContextRef s)) as [[d ctx]|] eqn:B.
  - assert (Hheld : outputAudioContextRef s <> None).
    { unfold audio_branch in B. destruct a; [|discriminate].
      destruct (outputAudioContextRef s); [discriminate | discriminate]. }
    destruct (decode d) as [bytes|e].
    + unfold resume_result; cbn [awaited suspendedMessage audioContext].
      destruct (decodeAudioData bytes ctx 24000%positive 1%nat) as [buf|e].
      * destruct (flag interrupted m && held _); cbn [fst snd]; split.
        -- right; right. split; [exact Hheld|]. eexists. right. eexists.
           right. reflexivity.
        -- rewrite app_nil_r. apply Forall_app. split; [exact Hl|].
           apply Forall_app. split; [repeat constructor|].
           apply message_event_stops.
        -- right; right. split; [exact Hheld|]. eexists. right. eexists.
           left. reflexivity.
        -- rewrite app_nil_r. apply Forall_app. split; [exact Hl|].
           repeat constructor.
      * cbn [fst snd]. split.
        -- right; right. split; [exact Hheld|]. eexists. left. reflexivity.
        -- now rewrite !app_nil_r.
    + cbn [fst snd]. split.
      * right; right. split; [exact Hheld|]. eexists. left. reflexivity.
      * now rewrite app_nil_r.
  - destruct (flag interrupted m && held (outputAudioContextRef s));
      cbn [fst snd]; split.
    + right; left. reflexivity.
    + apply Forall_app. split; [exact Hl | apply message_event_stops].
    + left. reflexivity.
    + now rewrite app_nil_r.
Qed.

Lemma onmessage_frame (m : LiveServerMessage) (now : Q) (s : App) :
  status (final (onmessage decode decodeAudioData m now s)) = status s /\
  error (final (onmessage decode decodeAudioData m now s)) = error s /\
  sessionPromiseRef (final (onmessage decode decodeAudioData m now s)) =
    sessionPromiseRef s /\
  inputAudioContextRef (final (onmessage decode decodeAudioData m now s)) =
    inputAudioContextRef s /\
  outputAudioContextRef (final (onmessage decode decodeAudioData m now s)) =
    outputAudioContextRef s /\
  microphoneStreamRef (final (onmessage decode decodeAudioData m now s)) =
    microphoneStreamRef s /\
  scriptProcessorRef (final (onmessage decode decodeAudioData m now s)) =
    scriptProcessorRef s /\
  Forall (fun e => message_event e = true)
    (trace (onmessage decode decodeAudioData m now s)).
Proof.
  destruct (onmessage_shape m now s) as (tr & ci & co & Hfinal & Htrace).
  destruct Hfinal as [E | [E | (_ & q & [E | (buf & [E | E])])]];
    rewrite E; repeat split; exact Htrace.
Qed.

(** X7.  Whatever an inbound message contains and however the decoding
    goes, [onmessage] changes neither the status nor the error message nor
    any of the five resource references, and the only calls it makes are
    [setTranscript] and [connect], [start], [stop] on buffer sources: a
    message never ends, aborts or tears down the session. *)
Theorem message_keeps_session (m : LiveServerMessage) (now : Q) (s : App) :
  status (final (onmessage decode decodeAudioData m now s)) = status s /\
  error (final (onmessage decode decodeAudioData m now s)) = error s /\
  sessionPromiseRef (final (onmessage decode decodeAudioData m now s)) =
    sessionPromiseRef s /\
  inputAudioContextRef (final (onmessage decode decodeAudioData m now s)) =
    inputAudioContextRef s /\
  outputAudioContextRef (final (onmessage decode decodeAudioData m now s)) =
    outputAudioContextRef s /\
  microphoneStreamRef (final (onmessage decode decodeAudioData m now s)) =
    microphoneStreamRef s /\
  scriptProcessorRef (final (onmessage decode decodeAudioData m now s)) =
    scriptProcessorRef s /\
  Forall (fun e => message_event e = true)
    (trace (onmessage decode decodeAudioData m now s)).
Proof.
  destruct (onmessage_shape m now s) as (tr & ci & co & Hfinal & Htrace).
  destruct Hfinal as [E | [E | (_ & q & [E | (buf & [E | E])])]];
    rewrite E; repeat split; exact Htrace.
Qed.

End Shape.

(* ================================================================== *)
(** * What the status says about the resources *)

Lemma status_inv_ext (s s' : App) :
  status s' = status s ->
  sessionPromiseRef s' = sessionPromiseRef s ->
  inputAudioContextRef s' = inputAudioContextRef s ->
  outputAudioContextRef s' = outputAudioContextRef s ->
  microphoneStreamRef s' = microphoneStreamRef s ->
  scriptProcessorRef s' = scriptProcessorRef s ->
  status_inv s -> status_inv s'.
Proof.
  unfold status_inv, holding. intros -> -> -> -> -> ->. auto.
Qed.

Lemma status_inv_contexts (s : App) :
  status_inv s ->
  keep_if_closed (inputAudioContextRef s) = None /\
  keep_if_closed (outputAudioContextRef s) = None.
Proof.
  unfold status_inv, holding, open_context, keep_if_closed.
  destruct (status s).
  - intros (_ & _ & -> & -> & _). split; reflexivity.
  - intros ((_ & Hi & Ho & _) & _).
    destruct (inputAudioContextRef s); [|contradiction].
    destruct (outputAudioContextRef s); [|contradiction].
    now rewrite Hi, Ho.
  - intros (_ & Hi & Ho & _).
    destruct (inputAudioContextRef s); [|contradiction].
    destruct (outputAudioContextRef s); [|contradiction].
    now rewrite Hi, Ho.
Qed.

Lemma status_inv_stopped (s : App) :
  status_inv s -> status_inv (stopped_state s).
Proof.
  intros H. destruct (@status_inv_contexts s H) as [Hi Ho].
  unfold status_inv, stopped_state; cbn.
  rewrite Hi, Ho.
  destruct (sessionPromiseRef s) as [[?|?]|]; repeat split.
Qed.

Lemma status_inv_start (env : Env) (s : App) :
  env_ok env -> status_inv s -> status_inv (final (startConversation env s)).
Proof.
  intros Hok Hs.
  destruct (status s) eqn:Est.
  - rewrite (@start_idle_eq env s Est).
    unfold status_inv in Hs. rewrite Est in Hs.
    destruct Hs as (Hmic & Hproc & Hin & Hout & Hsess).
    unfold acquire_result.
    destruct (truthy (or_else (API_KEY env) "")).
    + destruct (getUserMedia env) as [stream|e1].
      * destruct (newAudioContext env 16000) as [ic|e2] eqn:E1.
        -- pose proof (Hok _ _ E1) as Hic.
           destruct (newAudioContext env 24000) as [oc|e3] eqn:E2.
           ++ pose proof (Hok _ _ E2) as Hoc.
              unfold final, status_inv, holding, open_context; cbn.
              repeat split; try assumption; discriminate.
           ++ unfold final, status_inv, stopped_state, keep_if_closed; cbn.
              rewrite Hic, Hout.
              destruct (sessionPromiseRef s) as [[?|?]|]; repeat split;
                try contradiction.
        -- unfold final, status_inv, stopped_state, keep_if_closed; cbn.
           rewrite Hin, Hout.
           destruct (sessionPromiseRef s) as [[?|?]|]; repeat split;
             try contradiction.
      * unfold final, status_inv, stopped_state, keep_if_closed; cbn.
        rewrite Hin, Hout.
        destruct (sessionPromiseRef s) as [[?|?]|]; repeat split;
          try contradiction.
    + unfold final, status_inv, stopped_state, keep_if_closed; cbn.
      rewrite Hin, Hout.
      destruct (sessionPromiseRef s) as [[?|?]|]; repeat split;
        try contradiction.
  - rewrite start_unchanged; [exact Hs | rewrite Est; discriminate].
  - rewrite start_unchanged; [exact Hs | rewrite Est; discriminate].
Qed.

Lemma status_inv_open (p : ScriptProcessorNode) (s : App) :
  status_inv s -> status_inv (final (onopen p s)).
Proof.
  intros Hs. destruct (inputAudioContextRef s) as [ctx|] eqn:Hin.
  - rewrite (@onopen_eq p s ctx Hin). unfold final; cbn [fst snd].
    unfold status_inv, holding in *; cbn.
    destruct (status s).
    + destruct Hs as (_ & _ & Hnone & _). rewrite Hin in Hnone. discriminate.
    + split; [apply Hs | discriminate].
    + split; [exact Hs | discriminate].
  - unfold onopen. rewrite bind_gets, Hin. exact Hs.
Qed.

Section StatusInvariant.

Variable decode : string -> Completion (list Z).
Variable decodeAudioData :
  list Z -> AudioContext -> positive -> nat -> Completion AudioBuffer.

Lemma reachable_status (s : App) :
  reachable decode decodeAudioData s -> status_inv s.
Proof.
  induction 1 as [|env s Hok _ IH|s _ IH|p s _ IH|m now s _ IH|msg s _ IH|x s _ IH].
  - repeat split.
  - now apply status_inv_start.
  - rewrite stopConversation_eq. now apply status_inv_stopped.
  - now apply status_inv_open.
  - destruct (onmessage_frame decode decodeAudioData m now s)
      as (E1 & _ & E2 & E3 & E4 & E5 & E6 & _).
    revert IH. now apply status_inv_ext.
  - rewrite onerror_eq. unfold final; cbn [fst snd].
    apply status_inv_stopped.
    revert IH; apply status_inv_ext; reflexivity.
  - revert IH; apply status_inv_ext; reflexivity.
Qed.

(** X6.  In every state that the callbacks reach when run one at a time,
    the status tells which resources are held: with [IDLE] no stream, no
    capture node, no context and no fulfilled session promise is held; with
    [PROCESSING] and [LISTENING] the stream, the session promise and both
    contexts are held and the contexts are not closed; with [LISTENING] the
    capture node is held as well. *)
Theorem reachable_status_inv (s : App) :
  reachable decode decodeAudioData s -> status_inv s.
Proof.
  induction 1 as [|env s Hok _ IH|s _ IH|p s _ IH|m now s _ IH|msg s _ IH|x s _ IH].
  - repeat split.
  - now apply status_inv_start.
  - rewrite stopConversation_eq. now apply status_inv_stopped.
  - now apply status_inv_open.
  - destruct (onmessage_frame decode decodeAudioData m now s)
      as (E1 & _ & E2 & E3 & E4 & E5 & E6 & _).
    revert IH. now apply status_inv_ext.
  - rewrite onerror_eq. unfold final; cbn [fst snd].
    apply status_inv_stopped.
    revert IH; apply status_inv_ext; reflexivity.
  - revert IH; apply status_inv_ext; reflexivity.
Qed.

End StatusInvariant.

Lemma reachable_status_inv_witness : status_inv playingApp.
Proof.
  apply (@reachable_status_inv codec_decode codec_decodeAudioData playingApp).
  exact playingApp_reachable.
Defined.

(* ================================================================== *)
(** * Transcript handling of a message *)

Lemma appendFragment_eq (m : LiveServerMessage) (s : App) :
  appendFragment m s = (Normal tt, final (appendFragment m s), []).
Proof.
  unfold appendFragment.
  destruct (optional outputTranscription m); [reflexivity|].
  destruct (optional inputTranscription m); reflexivity.
Qed.

Lemma appendFragment_transcript (m : LiveServerMessage) (s : App) :
  transcript (final (appendFragment m s)) = transcript s.
Proof.
  unfold appendFragment.
  destruct (optional outputTranscription m); [reflexivity|].
  destruct (optional inputTranscription m); reflexivity.
Qed.

Lemma transcripts_eq (m : LiveServerMessage) (s : App) :
  transcripts m s =
  if flag turnComplete m
  then (Normal tt, final (completeTurn (final (appendFragment m s))),
        map AppendTranscript (turn_entries (final (appendFragment m s))))
  else (Normal tt, final (appendFragment m s), []).
Proof.
  pose proof (appendFragment_eq m s) as E.
  remember (final (appendFragment m s)) as s1 eqn:Hs1. clear Hs1.
  unfold transcripts. unfold bind. rewrite E.
  destruct (flag turnComplete m); cbn [when]; [|reflexivity].
  rewrite completeTurn_eq. reflexivity.
Qed.

Lemma turn_entries_shape (s : App) :
  (List.length (turn_entries s) <= 2)%nat /\
  Forall (fun e => truthy (text e) = true) (turn_entries s).
Proof.
  unfold turn_entries.
  destruct (truthy (trim (currentInputTranscriptionRef s))) eqn:E1,
    (truthy (trim (currentOutputTranscriptionRef s))) eqn:E2;
    cbn; split; try lia; repeat constructor; assumption.
Qed.

Section Transcripts.

Variable decode : string -> Completion (list Z).
Variable decodeAudioData :
  list Z -> AudioContext -> positive -> nat -> Completion AudioBuffer.

(** After lines 127-148 nothing in [onmessage] touches the transcript list
    or the buffers. *)
Lemma onmessage_after_transcripts (m : LiveServerMessage) (now : Q) (s : App) :
  transcript (final (onmessage decode decodeAudioData m now s)) =
    transcript (final (transcripts m s)) /\
  currentInputTranscriptionRef (final (onmessage decode decodeAudioData m now s)) =
    currentInputTranscriptionRef (final (transcripts m s)) /\
  currentOutputTranscriptionRef (final (onmessage decode decodeAudioData m now s)) =
    currentOutputTranscriptionRef (final (transcripts m s)).
Proof.
  rewrite onmessage_eq.
  generalize (final (transcripts m s)) (trace (transcripts m s)). intros s1 t1.
  unfold arrive_result.
  destruct (inlineAudio m) as [a|e]; [|repeat split].
  destruct (audio_branch a (outputAudioContextRef s1)) as [[d ctx]|].
  - destruct (decode d) as [bytes|e]; [|repeat split].
    unfold resume_result; cbn [awaited suspendedMessage].
    destruct (decodeAudioData bytes ctx 24000%positive 1%nat) as [buf|e];
      [|repeat split].
    destruct (flag interrupted m && held _); repeat split.
  - destruct (flag interrupted m && held (outputAudioContextRef s1)); repeat split.
Qed.

(** X8.  The transcript list is append-only under inbound messages: a
    message without turn-completion flag leaves it as it is, and one with
    the flag appends the entries of the turn, at most two, each with a
    non-empty text. *)
Theorem transcript_only_grows (m : LiveServerMessage) (now : Q) (s : App) :
  transcript (final (onmessage decode decodeAudioData m now s)) =
    transcript s ++
    (if flag turnComplete m then turn_entries (final (appendFragment m s))
     else []) /\
  (List.length (turn_entries (final (appendFragment m s))) <= 2)%nat /\
  Forall (fun e => truthy (text e) = true)
    (turn_entries (final (appendFragment m s))).
Proof.
  destruct (onmessage_after_transcripts m now s) as (E & _ & _).
  rewrite E, transcripts_eq.
  split; [|apply turn_entries_shape].
  destruct (flag turnComplete m); unfold final at 1; cbn [fst snd].
  - rewrite completeTurn_eq. unfold final at 1; cbn [fst snd].
    cbn. now rewrite appendFragment_transcript.
  - now rewrite appendFragment_transcript, app_nil_r.
Qed.

(** X9.  The output transcription takes precedence: for every message that
    carries one (and no turn-completion flag), whatever else it carries,
    the fragment is appended to the assistant buffer, and the user buffer
    is left as it is even when the message carries an input transcription
    too. *)
Theorem output_fragment_wins (m : LiveServerMessage) (ot : Transcription)
    (now : Q) (s : App) :
  optional outputTranscription m = Some ot ->
  flag turnComplete m = false ->
  currentOutputTranscriptionRef (final (onmessage decode decodeAudioData m now s)) =
    (currentOutputTranscriptionRef s ++ toString (transcriptionText ot))%string /\
  currentInputTranscriptionRef (final (onmessage decode decodeAudioData m now s)) =
    currentInputTranscriptionRef s.
Proof.
  intros Hot Htc.
  destruct (onmessage_after_transcripts m now s) as (_ & E2 & E3).
  rewrite E2, E3, transcripts_eq, Htc.
  unfold appendFragment. rewrite Hot. split; reflexivity.
Qed.

(** X10.  A fragment that arrives in the same message as the
    turn-completion flag belongs to the turn that is completed, whichever
    speaker it is from: it is appended to its buffer first (the assistant
    buffer for an output transcription, else the user buffer for an input
    transcription), the entries are made from the buffers after that, and
    both buffers end empty. *)
Theorem fragment_joins_completed_turn (m : LiveServerMessage) (now : Q) (s : App) :
  flag turnComplete m = true ->
  (transcript (final (onmessage decode decodeAudioData m now s)) =
     transcript s ++ turn_entries (final (appendFragment m s)) /\
   currentInputTranscriptionRef
     (final (onmessage decode decodeAudioData m now s)) = ""%string /\
   currentOutputTranscriptionRef
     (final (onmessage decode decodeAudioData m now s)) = ""%string) /\
  (forall ot,
     optional outputTranscription m = Some ot ->
     final (appendFragment m s) =
     with_currentOutputTranscriptionRef
       (currentOutputTranscriptionRef s ++ toString (transcriptionText ot)) s) /\
  (forall it,
     optional outputTranscription m = None ->
     optional inputTranscription m = Some it ->
     final (appendFragment m s) =
     with_currentInputTranscriptionRef
       (currentInputTranscriptionRef s ++ toString (transcriptionText it)) s).
Proof.
  intros Htc.
  destruct (onmessage_after_transcripts m now s) as (E1 & E2 & E3).
  rewrite E1, E2, E3, transcripts_eq, Htc.
  change (final (Normal tt, ?x, ?t)) with x.
  rewrite completeTurn_eq.
  change (final (Normal tt, ?x, ?t)) with x.
  split; [|split].
  - cbn. rewrite appendFragment_transcript. repeat split.
  - intros ot Hot. unfold appendFragment. now rewrite Hot.
  - intros it Hot Hit. unfold appendFragment. now rewrite Hot, Hit.
Qed.

(** X11.  A chunk is ignored when no output context is held or when its
    data is the empty string: nothing is decoded, nothing is thrown, and
    state and trace are unchanged, whatever the decoder would do. *)
Theorem chunk_ignored (d : string) (now : Q) (s : App) :
  outputAudioContextRef s = None \/ d = ""%string ->
  onmessage decode decodeAudioData (audioMessage d) now s = (Normal tt, s, []).
Proof.
  intros H. rewrite onmessage_eq.
  change (transcripts (audioMessage d) s) with (Normal tt, s, @nil Event).
  unfold final, trace; cbn [fst snd]. unfold arrive_result.
  change (inlineAudio (audioMessage d)) with (Normal (Some d)).
  assert (B : audio_branch (Some d) (outputAudioContextRef s) = None).
  { unfold audio_branch. destruct H as [-> | ->]; [reflexivity|].
    destruct (outputAudioContextRef s); reflexivity. }
  cbv beta iota. rewrite B. reflexivity.
Qed.

(** X12.  When one message carries a chunk that decodes and the
    interruption flag, the chunk is enqueued first and flushed at once: its
    source is started at the cursor and then stopped together with every
    source of the set; the set ends empty and the cursor at 0. *)
Theorem chunk_of_interruption_is_flushed (s : App) (ctx : AudioContext)
    (d : string) (bytes : list Z) (buf : AudioBuffer) (now : Q) :
  outputAudioContextRef s = Some ctx ->
  truthy d = true ->
  decode d = Normal bytes ->
  decodeAudioData bytes ctx 24000%positive 1%nat = Normal buf ->
  schedule (trace (onmessage decode decodeAudioData
                     (interruptedAudioMessage d) now s)) =
    [(Qmax (nextStartTimeRef s) now, duration buf)] /\
  stopped (trace (onmessage decode decodeAudioData
                    (interruptedAudioMessage d) now s)) =
    set_add (mkSource (createdSources s) buf) (playingSourcesRef s) /\
  playingSourcesRef
    (final (onmessage decode decodeAudioData (interruptedAudioMessage d) now s)) = [] /\
  nextStartTimeRef
    (final (onmessage decode decodeAudioData (interruptedAudioMessage d) now s)) = 0.
Proof.
  intros Hctx Hd Hdec Hbuf.
  rewrite onmessage_eq.
  change (transcripts (interruptedAudioMessage d) s) with (Normal tt, s, @nil Event).
  unfold final, trace; cbn [fst snd]. unfold arrive_result.
  change (inlineAudio (interruptedAudioMessage d)) with (Normal (Some d)).
  rewrite Hctx. unfold audio_branch. rewrite Hd, Hdec.
  unfold resume_result. cbn [awaited suspendedMessage audioContext]. rewrite Hbuf.
  change (flag interrupted (interruptedAudioMessage d)) with true.
  change (outputAudioContextRef
            (with_nextStartTimeRef (Qmax (nextStartTimeRef s) now) s))
    with (outputAudioContextRef s).
  rewrite Hctx. cbn [held andb fst snd app].
  cbn [schedule stopped buffer].
  rewrite schedule_stops, stopped_stops. repeat split.
Qed.

(** X13.  A message whose [modelTurn] has no [parts] makes [onmessage]
    throw at line 150: the transcript handling of lines 127-148 has taken
    effect, but the interruption block is not reached, so an interruption
    flag in that message stops nothing and resets nothing. *)
Theorem partless_turn_throws (tc ir : option bool) (it ot : option Transcription)
    (now : Q) (s : App) :
  (exists e, completion (onmessage decode decodeAudioData
                           (partlessMessage tc ir it ot) now s) = Throw e) /\
  final (onmessage decode decodeAudioData (partlessMessage tc ir it ot) now s) =
    final (transcripts (partlessMessage tc ir it ot) s) /\
  stopped (trace (onmessage decode decodeAudioData
                    (partlessMessage tc ir it ot) now s)) = [] /\
  playingSourcesRef
    (final (onmessage decode decodeAudioData (partlessMessage tc ir it ot) now s)) =
    playingSourcesRef s /\
  nextStartTimeRef
    (final (onmessage decode decodeAudioData (partlessMessage tc ir it ot) now s)) =
    nextStartTimeRef s.
Proof.
  rewrite onmessage_eq.
  destruct (transcripts_result (partlessMessage tc ir it ot) s)
    as (tr & ci & co & l & E).
  rewrite E. unfold final, trace, completion; cbn [fst snd].
  destruct (appends_silent l) as (_ & A2 & _).
  unfold arrive_result.
  change (inlineAudio (partlessMessage tc ir it ot))
    with (@Throw (option string)
            (mkError (Some "Cannot read properties of undefined (reading '0')"%string))).
  cbv beta iota. cbn [fst snd].
  rewrite app_nil_r. repeat split; [eexists; reflexivity | exact A2].
Qed.

End Transcripts.

Lemma output_fragment_wins_witness :
  currentOutputTranscriptionRef
    (final (onmessage codec_decode codec_decodeAudioData
              (transcriptionMessage (Some (mkTranscription (Some "you"%string)))
                 (Some (mkTranscription (Some "me"%string))) None)
              1 activeApp)) =
    (currentOutputTranscriptionRef activeApp ++ toString (Some "me"%string))%string /\
  currentInputTranscriptionRef
    (final (onmessage codec_decode codec_decodeAudioData
              (transcriptionMessage (Some (mkTranscription (Some "you"%string)))
                 (Some (mkTranscription (Some "me"%string))) None)
              1 activeApp)) =
    currentInputTranscriptionRef activeApp.
Proof.
  apply (@output_fragment_wins codec_decode codec_decodeAudioData
           (transcriptionMessage (Some (mkTranscription (Some "you"%string)))
              (Some (mkTranscription (Some "me"%string))) None)
           (mkTranscription (Some "me"%string)) 1 activeApp);
    reflexivity.
Defined.

Lemma fragment_joins_completed_turn_witness :
  transcript
    (final (onmessage codec_decode codec_decodeAudioData
              (transcriptionMessage None (Some (mkTranscription (Some " hi "%string)))
                 (Some true))
              1 activeApp)) =
    transcript activeApp ++
    turn_entries
      (final (appendFragment
                (transcriptionMessage None
                   (Some (mkTranscription (Some " hi "%string))) (Some true))
                activeApp)) /\
  turn_entries
    (final (appendFragment
              (transcriptionMessage None
                 (Some (mkTranscription (Some " hi "%string))) (Some true))
              activeApp)) = [mkEntry gemini "hi"].
Proof.
  split; [|reflexivity].
  apply (@fragment_joins_completed_turn codec_decode codec_decodeAudioData
           (transcriptionMessage None (Some (mkTranscription (Some " hi "%string)))
              (Some true))
           1 activeApp eq_refl).
Defined.

Lemma chunk_ignored_witness :
  onmessage codec_decode codec_decodeAudioData (audioMessage "!") 1 initialApp =
  (Normal tt, initialApp, []).
Proof.
  apply (@chunk_ignored codec_decode codec_decodeAudioData "!" 1 initialApp).
  left. reflexivity.
Defined.

Lemma chunk_of_interruption_is_flushed_witness :
  playingSourcesRef
    (final (onmessage codec_decode codec_decodeAudioData
              (interruptedAudioMessage "AAAAAA==") 1 playingApp)) = [] /\
  nextStartTimeRef
    (final (onmessage codec_decode codec_decodeAudioData
              (interruptedAudioMessage "AAAAAA==") 1 playingApp)) = 0.
Proof.
  destruct (@chunk_of_interruption_is_flushed codec_decode codec_decodeAudioData
              playingApp (mkContext 2 running) "AAAAAA==" [0; 0; 0; 0]%Z
              twoFrames 1 eq_refl eq_refl eq_refl eq_refl)
    as (_ & _ & W3 & W4).
  split; [exact W3 | exact W4].
Defined.

(* ================================================================== *)
(** * The active set *)

Lemma sources_fresh_ext (s s' : App) :
  playingSourcesRef s' = playingSourcesRef s ->
  createdSources s' = createdSources s ->
  sources_fresh s -> sources_fresh s'.
Proof. unfold sources_fresh. intros -> ->. auto. Qed.

Lemma sources_fresh_empty (s : App) :
  playingSourcesRef s = [] -> sources_fresh s.
Proof. unfold sources_fresh. intros ->. split; constructor. Qed.

Lemma sources_fresh_stopped (s : App) :
  sources_fresh s -> sources_fresh (stopped_state s).
Proof.
  intros H. unfold stopped_state.
  destruct (outputAudioContextRef s) as [c|].
  - destruct (is_closed c).
    + revert H; apply sources_fresh_ext; reflexivity.
    + now apply sources_fresh_empty.
  - revert H; apply sources_fresh_ext; reflexivity.
Qed.

Lemma set_add_fresh (n : nat) (b : AudioBuffer) (l : list AudioBufferSourceNode) :
  Forall (fun x => (sourceId x < n)%nat) l ->
  existsb (same_source (mkSource n b)) l = false /\
  set_add (mkSource n b) l = l ++ [mkSource n b].
Proof.
  intros H.
  assert (E : existsb (same_source (mkSource n b)) l = false).
  { induction H as [|x l Hx _ IH]; [reflexivity|].
    cbn [existsb]. rewrite IH, orb_false_r.
    unfold same_source; cbn. apply Nat.eqb_neq. lia. }
  split; [exact E|]. unfold set_add. now rewrite E.
Qed.

Lemma sources_fresh_enqueued (buf : AudioBuffer) (s : App) :
  sources_fresh s -> sources_fresh (enqueued buf s).
Proof.
  intros [Hlt Hnd]. unfold sources_fresh, enqueued; cbn.
  destruct (@set_add_fresh (createdSources s) buf (playingSourcesRef s) Hlt) as [_ E]. rewrite E.
  split.
  - apply Forall_app. split.
    + eapply Forall_impl; [|exact Hlt]. cbn. intros; lia.
    + constructor; [cbn; lia | constructor].
  - rewrite map_app. cbn [map sourceId]. apply NoDup_app.
    + exact Hnd.
    + constructor; [intros [] | constructor].
    + intros a Ha [<- | []].
      apply in_map_iff in Ha. destruct Ha as (x & Hx & Hin).
      rewrite Forall_forall in Hlt. specialize (Hlt x Hin). lia.
Qed.

Lemma sources_fresh_deleted (x : AudioBufferSourceNode) (s : App) :
  sources_fresh s ->
  sources_fresh (with_playingSourcesRef (set_delete x (playingSourcesRef s)) s).
Proof.
  intros [Hlt Hnd]. unfold sources_fresh, set_delete; cbn.
  revert Hlt Hnd. generalize (playingSourcesRef s) (createdSources s).
  induction l as [|y l IH]; intros n Hlt Hnd; [split; constructor|].
  inversion_clear Hlt as [|? ? Hy Hl]. cbn [map] in Hnd.
  inversion_clear Hnd as [|? ? Hnotin Hnd'].
  destruct (IH n Hl Hnd') as [IH1 IH2].
  cbn [filter]. destruct (negb (same_source x y)); [|split; assumption].
  split; [constructor; assumption|].
  cbn [map]. constructor; [|exact IH2].
  intros Hin. apply Hnotin.
  apply in_map_iff in Hin. destruct Hin as (z & Hz & Hzin).
  apply filter_In in Hzin. apply in_map_iff. exists z. tauto.
Qed.

Lemma sources_fresh_start (env : Env) (s : App) :
  sources_fresh s -> sources_fresh (final (startConversation env s)).
Proof.
  intros Hs.
  destruct (status s) eqn:Est.
  - rewrite (@start_idle_eq env s Est). unfold acquire_result.
    destruct (truthy (or_else (API_KEY env) ""));
      [destruct (getUserMedia env);
       [destruct (newAudioContext env 16000);
        [destruct (newAudioContext env 24000)|]|]|];
      unfold final; cbn [fst snd];
      try (apply sources_fresh_stopped);
      revert Hs; apply sources_fresh_ext; reflexivity.
  - rewrite start_unchanged; [exact Hs | rewrite Est; discriminate].
  - rewrite start_unchanged; [exact Hs | rewrite Est; discriminate].
Qed.

Section ActiveSet.

Variable decode : string -> Completion (list Z).
Variable decodeAudioData :
  list Z -> AudioContext -> positive -> nat -> Completion AudioBuffer.

Lemma sources_fresh_message (m : LiveServerMessage) (now : Q) (s : App) :
  sources_fresh s ->
  sources_fresh (final (onmessage decode decodeAudioData m now s)).
Proof.
  intros Hs.
  destruct (onmessage_shape decode decodeAudioData m now s)
    as (tr & ci & co & Hfinal & _).
  assert (H1 : forall q, sources_fresh
                           (with_nextStartTimeRef q (turn_update tr ci co s)))
    by (intros q; revert Hs; apply sources_fresh_ext; reflexivity).
  destruct Hfinal as [E | [E | (_ & q & [E | (buf & [E | E])])]]; rewrite E.
  - revert Hs; apply sources_fresh_ext; reflexivity.
  - now apply sources_fresh_empty.
  - apply H1.
  - apply sources_fresh_enqueued, H1.
  - now apply sources_fresh_empty.
Qed.

Lemma reachable_fresh (s : App) :
  reachable decode decodeAudioData s -> sources_fresh s.
Proof.
  induction 1 as [|env s Hok _ IH|s _ IH|p s _ IH|m now s _ IH|msg s _ IH|x s _ IH].
  - now apply sources_fresh_empty.
  - now apply sources_fresh_start.
  - rewrite stopConversation_eq. now apply sources_fresh_stopped.
  - unfold onopen. rewrite bind_gets.
    destruct (inputAudioContextRef s); [|exact IH].
    revert IH; apply sources_fresh_ext; reflexivity.
  - now apply sources_fresh_message.
  - rewrite onerror_eq. unfold final; cbn [fst snd].
    apply sources_fresh_stopped.
    revert IH; apply sources_fresh_ext; reflexivity.
  - now apply sources_fresh_deleted.
Qed.


(** X15.  In such a state, with an output context held, a chunk that decodes
    adds exactly one source, the new one, at the end of the active set, and
    the ['ended'] listener of that source restores the set as it was. *)
Theorem enqueue_then_ended (s : App) (ctx : AudioContext) (d : string)
    (bytes : list Z) (buf : AudioBuffer) (now : Q) :
  reachable decode decodeAudioData s ->
  outputAudioContextRef s = Some ctx ->
  truthy d = true ->
  decode d = Normal bytes ->
  decodeAudioData bytes ctx 24000%positive 1%nat = Normal buf ->
  playingSourcesRef (final (onmessage decode decodeAudioData (audioMessage d) now s)) =
    playingSourcesRef s ++ [mkSource (createdSources s) buf] /\
  playingSourcesRef
    (final (onended (mkSource (createdSources s) buf)
              (final (onmessage decode decodeAudioData (audioMessage d) now s)))) =
    playingSourcesRef s.
Proof.
  intros Hreach Hctx Hd Hdec Hbuf.
  destruct (reachable_fresh Hreach) as [Hlt _].
  rewrite (@onmessage_audio decode decodeAudioData s ctx d bytes buf now
             Hctx Hd Hdec Hbuf).
  unfold final; cbn [fst snd]. unfold enqueued, onended, modify; cbn.
  destruct (@set_add_fresh (createdSources s) buf (playingSourcesRef s) Hlt) as [Hex E].
  rewrite E. split; [reflexivity|].
  unfold set_delete. rewrite filter_app. cbn [filter sourceId].
  rewrite Nat.eqb_refl. cbn [negb]. rewrite app_nil_r.
  apply forallb_filter_id.
  rewrite forallb_forall. intros y Hy.
  rewrite Forall_forall in Hlt. specialize (Hlt y Hy).
  apply negb_true_iff, Nat.eqb_neq. lia.
Qed.

End ActiveSet.


Lemma enqueue_then_ended_witness :
  playingSourcesRef
    (final (onended (mkSource (createdSources playingApp) twoFrames)
              (final (onmessage codec_decode codec_decodeAudioData
                        (audioMessage "AAAAAA==") 1 playingApp)))) =
    playingSourcesRef playingApp.
Proof.
  apply (@enqueue_then_ended codec_decode codec_decodeAudioData playingApp
           (mkContext 2 running) "AAAAAA==" [0; 0; 0; 0]%Z twoFrames 1);
    try reflexivity.
  exact playingApp_reachable.
Defined.

(* ================================================================== *)
(** * Decodes that complete late *)

Section Late.

Variable decode : string -> Completion (list Z).
Variable decodeAudioData :
  list Z -> AudioContext -> positive -> nat -> Completion AudioBuffer.

Lemma arrive_audio_eq (s : App) (ctx : AudioContext) (d : string)
    (bytes : list Z) (now : Q) :
  outputAudioContextRef s = Some ctx ->
  truthy d = true ->
  decode d = Normal bytes ->
  onmessage_arrive decode decodeAudioData (audioMessage d) now s =
  (Normal (Some (mkSuspended (decodeAudioData bytes ctx 24000%positive 1%nat)
                   ctx (audioMessage d))),
   with_nextStartTimeRef (Qmax (nextStartTimeRef s) now) s, []).
Proof.
  intros Hctx Hd Hdec.
  rewrite onmessage_arrive_eq.
  change (transcripts (audioMessage d) s) with (Normal tt, s, @nil Event).
  unfold final, trace; cbn [fst snd]. unfold arrive_result.
  change (inlineAudio (audioMessage d)) with (Normal (Some d)).
  rewrite Hctx. unfold audio_branch. rewrite Hd, Hdec. reflexivity.
Qed.

Lemma arrive_interrupted_eq (s : App) (now : Q) :
  held (outputAudioContextRef s) = true ->
  onmessage_arrive decode decodeAudioData interruptedMessage now s =
  (Normal None, flushed s, map SourceStop (playingSourcesRef s)).
Proof.
  intros H. rewrite onmessage_arrive_eq.
  change (transcripts interruptedMessage s) with (Normal tt, s, @nil Event).
  unfold final, trace; cbn [fst snd]. unfold arrive_result.
  change (inlineAudio interruptedMessage) with (@Normal (option string) None).
  cbn [audio_branch]. rewrite H. reflexivity.
Qed.

Lemma sys_step_cursor (y : Sys) (st : Step) :
  no_interruption st -> between_resets y ->
  nextStartTimeRef (sysApp y) <=
  nextStartTimeRef (sysApp (sys_step decode decodeAudioData y st)).
Proof.
  intros Hst (_ & _ & _ & Hpend).
  destruct st as [message now | i]; cbn [no_interruption] in Hst; unfold sys_step.
  - destruct (arrive_quiet decode decodeAudioData message now (sysApp y) Hst)
      as (_ & Q2 & _).
    destruct (onmessage_arrive decode decodeAudioData message now (sysApp y))
      as [[r s'] t].
    exact Q2.
  - destruct (nth_error (sysSuspended y) i) as [k|] eqn:Ek; [|apply Qle_refl].
    assert (Hk : flag interrupted (suspendedMessage k) = false).
    { rewrite Forall_forall in Hpend. apply Hpend.
      eapply nth_error_In; eassumption. }
    rewrite onmessage_resume_eq. unfold resume_result.
    rewrite Hk. cbn [andb].
    destruct (awaited k) as [buf|e]; cbn [sysApp]; [|apply Qle_refl].
    change (nextStartTimeRef (enqueued buf (sysApp y)))
      with (nextStartTimeRef (sysApp y) + duration buf).
    pose proof (duration_nonneg buf). lra.
Qed.

Lemma sys_run_cursor (steps : list Step) :
  forall y, Forall no_interruption steps -> between_resets y ->
            nextStartTimeRef (sysApp y) <=
            nextStartTimeRef (sysApp (sys_run decode decodeAudioData steps y)).
Proof.
  induction steps as [|st steps IH]; intros y Hsteps Hy; [apply Qle_refl|].
  inversion_clear Hsteps as [|? ? Hst Hrest].
  cbn [sys_run fold_left].
  eapply Qle_trans; [apply (@sys_step_cursor y st Hst Hy)|].
  apply IH; [exact Hrest|].
  now apply sys_step_between_resets.
Qed.

(** X16.  Between resets the cursor never moves back: over any
    interleaving of arrivals without interruption flag and completions of
    decodes, [nextStartTime] at the end is at least what it was at the
    beginning. *)
Theorem cursor_never_moves_back (steps : list Step) (s : App) :
  Forall no_interruption steps ->
  nextStartTimeRef s <=
  nextStartTimeRef
    (sysApp (sys_run decode decodeAudioData steps (mkSys s [] []))).
Proof.
  intros Hsteps.
  apply (@sys_run_cursor steps (mkSys s [] []) Hsteps).
  repeat split; constructor.
Qed.

Lemma late_interruption_run (s : App) (ctx : AudioContext)
    (d : string) (bytes : list Z) (buf : AudioBuffer) (now now2 : Q) :
  outputAudioContextRef s = Some ctx ->
  truthy d = true ->
  decode d = Normal bytes ->
  decodeAudioData bytes ctx 24000%positive 1%nat = Normal buf ->
  sys_run decode decodeAudioData
    [Arrive (audioMessage d) now; Arrive interruptedMessage now2; Settle 0]
    (mkSys s [] []) =
  mkSys
    (enqueued buf
       (flushed (with_nextStartTimeRef (Qmax (nextStartTimeRef s) now) s)))
    []
    (map SourceStop (playingSourcesRef s) ++
     [SourceConnect (mkSource (createdSources s) buf) ctx;
      SourceStart (mkSource (createdSources s) buf) 0]).
Proof.
  intros Hctx Hd Hdec Hbuf.
  unfold sys_run; cbn [fold_left]. unfold sys_step at 3. cbn [sysApp].
  rewrite (@arrive_audio_eq s ctx d bytes now Hctx Hd Hdec), Hbuf.
  cbn [sysSuspended sysTrace app].
  unfold sys_step at 2. cbn [sysApp].
  rewrite arrive_interrupted_eq by (cbn; now rewrite Hctx).
  cbn [sysSuspended sysTrace app].
  unfold sys_step. cbn [sysSuspended nth_error sysApp sysTrace remove_nth].
  rewrite onmessage_resume_eq. unfold resume_result.
  cbn [awaited suspendedMessage audioContext].
  change (flag interrupted (audioMessage d)) with false. cbn [andb].
  reflexivity.
Qed.

(** X17.  An interruption does not cancel a call of [onmessage] that is
    suspended at its [await].  When a chunk arrives, an interruption is
    handled while the chunk is being decoded, and the decode then
    completes, the sources of the set are stopped by the interruption, but
    the late chunk is still started, at the reset cursor 0, and is alone in
    the set afterwards. *)
Theorem late_chunk_survives_interruption (s : App) (ctx : AudioContext)
    (d : string) (bytes : list Z) (buf : AudioBuffer) (now now2 : Q) :
  outputAudioContextRef s = Some ctx ->
  truthy d = true ->
  decode d = Normal bytes ->
  decodeAudioData bytes ctx 24000%positive 1%nat = Normal buf ->
  stopped (sysTrace (sys_run decode decodeAudioData
                       [Arrive (audioMessage d) now;
                        Arrive interruptedMessage now2; Settle 0]
                       (mkSys s [] []))) = playingSourcesRef s /\
  schedule (sysTrace (sys_run decode decodeAudioData
                        [Arrive (audioMessage d) now;
                         Arrive interruptedMessage now2; Settle 0]
                        (mkSys s [] []))) = [(0, duration buf)] /\
  playingSourcesRef
    (sysApp (sys_run decode decodeAudioData
               [Arrive (audioMessage d) now;
                Arrive interruptedMessage now2; Settle 0]
               (mkSys s [] []))) = [mkSource (createdSources s) buf] /\
  nextStartTimeRef
    (sysApp (sys_run decode decodeAudioData
               [Arrive (audioMessage d) now;
                Arrive interruptedMessage now2; Settle 0]
               (mkSys s [] []))) = 0 + duration buf.
Proof.
  intros Hctx Hd Hdec Hbuf.
  rewrite (@late_interruption_run s ctx d bytes buf now now2 Hctx Hd Hdec Hbuf).
  cbn [sysApp sysTrace].
  rewrite stopped_app, schedule_app, stopped_stops, schedule_stops.
  repeat split. apply app_nil_r.
Qed.

(** X18.  [stopConversation] does not cancel a suspended call of
    [onmessage] either.  When the decode of a chunk completes after the
    teardown, the source is still connected to the context the call had
    captured, started at the reset cursor 0 and added to the set: the
    component is then [IDLE] and holds no output context, yet its set is not
    empty and its cursor is not 0. *)
Theorem late_chunk_survives_stop (s : App) (ctx : AudioContext)
    (d : string) (bytes : list Z) (buf : AudioBuffer) (now : Q) :
  outputAudioContextRef s = Some ctx ->
  is_closed ctx = false ->
  truthy d = true ->
  decode d = Normal bytes ->
  decodeAudioData bytes ctx 24000%positive 1%nat = Normal buf ->
  completion (onmessage_arrive decode decodeAudioData (audioMessage d) now s) =
    Normal (Some (mkSuspended (Normal buf) ctx (audioMessage d))) /\
  onmessage_resume (mkSuspended (Normal buf) ctx (audioMessage d))
    (final (stopConversation
              (final (onmessage_arrive decode decodeAudioData
                        (audioMessage d) now s)))) =
  (Normal tt,
   enqueued buf
     (final (stopConversation
               (final (onmessage_arrive decode decodeAudioData
                         (audioMessage d) now s)))),
   [SourceConnect (mkSource (createdSources s) buf) ctx;
    SourceStart (mkSource (createdSources s) buf) 0]) /\
  status
    (enqueued buf
       (final (stopConversation
                 (final (onmessage_arrive decode decodeAudioData
                           (audioMessage d) now s))))) = IDLE /\
  outputAudioContextRef
    (enqueued buf
       (final (stopConversation
                 (final (onmessage_arrive decode decodeAudioData
                           (audioMessage d) now s))))) = None /\
  playingSourcesRef
    (enqueued buf
       (final (stopConversation
                 (final (onmessage_arrive decode decodeAudioData
                           (audioMessage d) now s))))) =
    [mkSource (createdSources s) buf] /\
  nextStartTimeRef
    (enqueued buf
       (final (stopConversation
                 (final (onmessage_arrive decode decodeAudioData
                           (audioMessage d) now s))))) = 0 + duration buf.
Proof.
  intros Hctx Hopen Hd Hdec Hbuf.
  rewrite (@arrive_audio_eq s ctx d bytes now Hctx Hd Hdec), Hbuf.
  change (final (Normal ?r, ?x, ?t)) with x.
  rewrite stopConversation_eq.
  change (final (Normal ?r, ?x, ?t)) with x.
  rewrite onmessage_resume_eq. unfold resume_result.
  cbn [awaited suspendedMessage audioContext].
  change (flag interrupted (audioMessage d)) with false. cbn [andb].
  unfold enqueued, stopped_state, keep_if_closed; cbn.
  rewrite Hctx, Hopen. repeat split.
Qed.

End Late.

Lemma cursor_never_moves_back_witness :
  nextStartTimeRef activeApp <=
  nextStartTimeRef
    (sysApp (sys_run codec_decode codec_decodeAudioData
               [Arrive (audioMessage "AAAAAA==") 2; Arrive (audioMessage "AAA=") 1;
                Settle 1; Settle 0]
               (mkSys activeApp [] []))).
Proof.
  apply (@cursor_never_moves_back codec_decode codec_decodeAudioData
           [Arrive (audioMessage "AAAAAA==") 2; Arrive (audioMessage "AAA=") 1;
            Settle 1; Settle 0] activeApp).
  repeat constructor.
Defined.

Lemma late_chunk_survives_interruption_witness :
  playingSourcesRef
    (sysApp (sys_run codec_decode codec_decodeAudioData
               [Arrive (audioMessage "AAAAAA==") 1;
                Arrive interruptedMessage 2; Settle 0]
               (mkSys playingApp [] []))) =
    [mkSource (createdSources playingApp) twoFrames].
Proof.
  apply (@late_chunk_survives_interruption codec_decode codec_decodeAudioData
           playingApp (mkContext 2 running) "AAAAAA==" [0; 0; 0; 0]%Z twoFrames
           1 2 eq_refl eq_refl eq_refl eq_refl).
Defined.

Lemma late_chunk_survives_stop_witness :
  playingSourcesRef
    (enqueued twoFrames
       (final (stopConversation
                 (final (onmessage_arrive codec_decode codec_decodeAudioData
                           (audioMessage "AAAAAA==") 1 playingApp))))) =
    [mkSource (createdSources playingApp) twoFrames].
Proof.
  apply (@late_chunk_survives_stop codec_decode codec_decodeAudioData
           playingApp (mkContext 2 running) "AAAAAA==" [0; 0; 0; 0]%Z twoFrames
           1 eq_refl eq_refl eq_refl eq_refl eq_refl).
Defined.

(* ================================================================== *)
(** * The capture callback *)

Section CaptureFacts.

Variable decode : string -> Completion (list Z).
Variable decodeAudioData :
  list Z -> AudioContext -> positive -> nat -> Completion AudioBuffer.
Variable WireBlob : Type.
Variable createBlob : list Q -> WireBlob.

(** X19.  Capture blocks are sent only while a session is held: after a
    teardown, by [stopConversation] or by [onerror], a capture callback that
    still fires sends nothing, and in every state with status [IDLE] that
    the callbacks reach when run one at a time it sends nothing. *)
Theorem nothing_sent_when_idle (inputData : list Q) (e_message : string)
    (s s' : App) :
  reachable decode decodeAudioData s' ->
  status s' = IDLE ->
  onaudioprocess createBlob inputData (final (stopConversation s)) = None /\
  onaudioprocess createBlob inputData (final (onerror e_message s)) = None /\
  onaudioprocess createBlob inputData s' = None.
Proof.
  intros Hreach Hidle.
  rewrite stopConversation_eq, onerror_eq. unfold final; cbn [fst snd].
  unfold onaudioprocess, stopped_state; cbn.
  split; [|split].
  - destruct (sessionPromiseRef s) as [[?|?]|]; reflexivity.
  - destruct (sessionPromiseRef s) as [[?|?]|]; reflexivity.
  - pose proof (reachable_status Hreach) as Hinv.
    unfold status_inv in Hinv. rewrite Hidle in Hinv.
    destruct Hinv as (_ & _ & _ & _ & Hsess).
    destruct (sessionPromiseRef s') as [[?|?]|]; [contradiction | |]; reflexivity.
Qed.

End CaptureFacts.

Lemma nothing_sent_when_idle_witness :
  onaudioprocess (fun samples : list Q => Codec.encode samples) [0; 1 # 2]
    (final (stopConversation playingApp)) = None.
Proof.
  apply (@nothing_sent_when_idle codec_decode codec_decodeAudioData string
           (fun samples : list Q => Codec.encode samples) [0; 1 # 2] "lost"
           playingApp initialApp (reach_mount _ _) eq_refl).
Defined.

(* ================================================================== *)
(** * The first chunk of a session *)

Section FirstChunk.

Variable decode : string -> Completion (list Z).
Variable decodeAudioData :
  list Z -> AudioContext -> positive -> nat -> Completion AudioBuffer.

(** X20.  [startConversation] resets neither the cursor nor the active
    set.  From any state with status [IDLE], after a successful start and
    the opening of the transport, the first chunk that decodes starts at
    the maximum of the cursor left from before and the clock, and joins the
    sources the set still held.  In the states that the callbacks reach
    when run one at a time, each to its end, the cursor left is 0 and the
    set is empty, so that the chunk starts at [max(0, currentTime)] and is
    alone in the set. *)
Theorem first_chunk_starts_at_clock (env : Env) (s : App)
    (p : ScriptProcessorNode) (stream : MediaStream) (ic oc : AudioContext)
    (d : string) (bytes : list Z) (buf : AudioBuffer) (now : Q) :
  status s = IDLE ->
  truthy (or_else (API_KEY env) "") = true ->
  getUserMedia env = Normal stream ->
  newAudioContext env 16000 = Normal ic ->
  newAudioContext env 24000 = Normal oc ->
  truthy d = true ->
  decode d = Normal bytes ->
  decodeAudioData bytes oc 24000%positive 1%nat = Normal buf ->
  (schedule
     (trace (onmessage decode decodeAudioData (audioMessage d) now
               (final (onopen p (final (startConversation env s)))))) =
     [(Qmax (nextStartTimeRef s) now, duration buf)] /\
   playingSourcesRef
     (final (onmessage decode decodeAudioData (audioMessage d) now
               (final (onopen p (final (startConversation env s)))))) =
     set_add (mkSource (createdSources s) buf) (playingSourcesRef s)) /\
  (reachable decode decodeAudioData s ->
   schedule
     (trace (onmessage decode decodeAudioData (audioMessage d) now
               (final (onopen p (final (startConversation env s)))))) =
     [(Qmax 0 now, duration buf)] /\
   playingSourcesRef
     (final (onmessage decode decodeAudioData (audioMessage d) now
               (final (onopen p (final (startConversation env s)))))) =
     [mkSource (createdSources s) buf]).
Proof.
  intros Hidle Hk Hm Hi Ho Hd Hdec Hbuf.
  rewrite (@start_success_eq env s stream ic oc Hidle Hk Hm Hi Ho).
  change (final (Normal tt, ?x, ?t)) with x.
  rewrite (@onopen_eq p _ ic) by reflexivity.
  change (final (Normal tt, ?x, ?t)) with x.
  rewrite (@onmessage_audio decode decodeAudioData _ oc d bytes buf now);
    try assumption; try reflexivity.
  unfold trace, final; cbn [fst snd]. unfold enqueued; cbn.
  split; [split; reflexivity|].
  intros Hreach.
  pose proof (reachable_status Hreach) as Hst.
  pose proof (reachable_scheduler_inv Hreach) as Hsch.
  unfold status_inv in Hst. rewrite Hidle in Hst.
  destruct Hst as (_ & _ & _ & Hout & _).
  unfold scheduler_inv in Hsch. rewrite Hout in Hsch.
  destruct Hsch as [Hp Hn].
  rewrite Hp, Hn. split; reflexivity.
Qed.

End FirstChunk.

Lemma first_chunk_starts_at_clock_witness :
  schedule
    (trace (onmessage codec_decode codec_decodeAudioData (audioMessage "AAAAAA==") 5
              (final (onopen (mkProcessor 3)
                        (final (startConversation goodEnv
                                  (final (stopConversation playingApp)))))))) =
    [(Qmax 0 5, duration twoFrames)] /\
  playingSourcesRef
    (final (onmessage codec_decode codec_decodeAudioData (audioMessage "AAAAAA==") 5
              (final (onopen (mkProcessor 3)
                        (final (startConversation goodEnv
                                  (final (stopConversation playingApp)))))))) =
    [mkSource (createdSources (final (stopConversation playingApp))) twoFrames].
Proof.
  apply (@first_chunk_starts_at_clock codec_decode codec_decodeAudioData goodEnv
           (final (stopConversation playingApp)) (mkProcessor 3)
           (mkStream [7%nat]) (mkContext 1 running) (mkContext 2 running)
           "AAAAAA==" [0; 0; 0; 0]%Z twoFrames 5 eq_refl eq_refl eq_refl eq_refl
           eq_refl eq_refl eq_refl eq_refl).
  apply reach_stop, playingApp_reachable.
Defined.

(* ================================================================== *)
(** * Flush *)


Section FlushFacts.

Variable decode : string -> Completion (list Z).
Variable decodeAudioData :
  list Z -> AudioContext -> positive -> nat -> Completion AudioBuffer.


End FlushFacts.




(* ================================================================== *)
(** * Aborts *)

Lemma acquire_result_releases_nothing (env : Env) (s : App) :
  filter is_release (trace (acquire_result env s)) = [].
Proof.
  unfold acquire_result.
  destruct (truthy (or_else (API_KEY env) ""));
    [destruct (getUserMedia env);
     [destruct (newAudioContext env 16000);
      [destruct (newAudioContext env 24000)|]|]|];
    reflexivity.
Qed.

(** C8, as amended.  A transport error ([onerror]) sets the error message
    to ["Connection error: "] followed by the event's message, runs the
    teardown (its release calls are those due in the state, in the order of
    the teardown), ends with status [IDLE] and no resource held, and leaves
    the transcript list unchanged.  An acquisition failure, thrown inside
    the [try] block of a [startConversation] called with status [IDLE], sets
    a non-empty error message (the thrown message, or a fixed text when that
    is missing or empty), runs the same teardown on the state reached at the
    throw and ends with status [IDLE] and no resource held; the transcript
    list is then empty, as [startConversation] had emptied it before the
    [try] block. *)
Theorem abort_tears_down (env : Env) (s s0 : App) (e_message : string)
    (e : JsError) :
  status s0 = IDLE ->
  completion (acquire env (starting s0)) = Throw e ->
  (completion (onerror e_message s) = Normal tt /\
   error (final (onerror e_message s)) =
     Some ("Connection error: " ++ e_message)%string /\
   status (final (onerror e_message s)) = IDLE /\
   transcript (final (onerror e_message s)) = transcript s /\
   filter is_release (trace (onerror e_message s)) = release_order s /\
   released (final (onerror e_message s))) /\
  (completion (startConversation env s0) = Normal tt /\
   error (final (startConversation env s0)) =
     Some (or_else (message e) "An unexpected error occurred.") /\
   truthy (or_else (message e) "An unexpected error occurred.") = true /\
   status (final (startConversation env s0)) = IDLE /\
   filter is_release (trace (startConversation env s0)) =
     release_order (final (acquire env (starting s0))) /\
   released (final (startConversation env s0)) /\
   transcript (final (acquire env (starting s0))) = [] /\
   transcript (final (startConversation env s0)) = []).
Proof.
  intros Hidle Hthrow.
  split.
  - rewrite onerror_eq. unfold completion, trace, final; cbn [fst snd].
    cbn [filter is_release]. rewrite stop_trace_releases.
    repeat match goal with |- _ /\ _ => split end; try reflexivity.
    apply stopped_state_released.
  - pose proof (acquire_frame env (starting s0)) as [Ht _].
    rewrite (@start_idle_eq env s0 Hidle).
    pose proof (acquire_result_releases_nothing env (starting s0)) as Hrel.
    rewrite acquire_eq in Hthrow, Ht |- *.
    destruct (acquire_result env (starting s0)) as [[[a|e'] s1] t1];
      unfold completion, trace, final in *; cbn [fst snd] in *;
      [discriminate|].
    injection Hthrow as ->.
    cbn [filter is_release]. rewrite filter_app, Hrel. cbn [filter is_release app].
    rewrite stop_trace_releases.
    repeat match goal with |- _ /\ _ => split end; try reflexivity.
    + now apply or_else_truthy.
    + apply stopped_state_released.
    + exact Ht.
    + exact Ht.
Qed.

Lemma abort_tears_down_witness :
  (error (final (onerror "lost" playingApp)) =
     Some ("Connection error: " ++ "lost")%string /\
   status (final (onerror "lost" playingApp)) = IDLE /\
   filter is_release (trace (onerror "lost" playingApp)) =
     release_order playingApp) /\
  (error (final (startConversation deniedEnv
                   (with_transcript [mkEntry user "hello"] initialApp))) =
     Some (or_else (Some "Permission denied"%string)
             "An unexpected error occurred.") /\
   status (final (startConversation deniedEnv
                    (with_transcript [mkEntry user "hello"] initialApp))) = IDLE /\
   transcript (final (startConversation deniedEnv
                        (with_transcript [mkEntry user "hello"] initialApp))) = []).
Proof.
  destruct (@abort_tears_down deniedEnv playingApp
              (with_transcript [mkEntry user "hello"] initialApp) "lost"
              (mkError (Some "Permission denied"%string)) eq_refl eq_refl)
    as ((_ & A2 & A3 & _ & A5 & _) & (_ & B2 & _ & B4 & _ & _ & _ & B8)).
  repeat split; assumption.
Defined.

(** C8, as stated, fails.  The list holds one entry of an earlier session
    and the status is [IDLE]; [startConversation] is called and the
    microphone is refused.  The call aborts with the message surfaced and
    the status back at [IDLE], but the list is empty afterwards: the entry
    appended before the abort has not remained. *)
Lemma failed_start_loses_entries :
  status (with_transcript [mkEntry user "hello"] initialApp) = IDLE /\
  completion (acquire deniedEnv
                (starting (with_transcript [mkEntry user "hello"] initialApp))) =
    Throw (mkError (Some "Permission denied"%string)) /\
  error (final (startConversation deniedEnv
                  (with_transcript [mkEntry user "hello"] initialApp))) =
    Some "Permission denied"%string /\
  status (final (startConversation deniedEnv
                   (with_transcript [mkEntry user "hello"] initialApp))) = IDLE /\
  transcript (with_transcript [mkEntry user "hello"] initialApp) =
    [mkEntry user "hello"] /\
  transcript (final (startConversation deniedEnv
                       (with_transcript [mkEntry user "hello"] initialApp))) = [].
Proof.
  repeat match goal with |- _ /\ _ => split end; vm_compute; reflexivity.
Qed.
